(** * Lens: the cluster store and the per-cluster context handler

    A shallow embedding of [src/common/cluster-store.ts] (class [ClusterStore])
    and of the context handler (class [ContextHandler]) together with the
    properties of both that the specification states.

    Layout: runtime values and data records, the cluster store, the context
    handler (a state-and-error monad over the handler object and the effects
    it causes), the interleaving of overlapping port resolutions; then the
    theorems. *)

From stdpp Require Import base option list strings gmap pretty.
From Stdlib Require Import ZArith Lia.

#[global] Set Warnings "-clear-no-such-hyp".

Open Scope Z_scope.

(** ** Runtime values *)

(** Values that a [throw] or a rejected promise carries.  [TypeError] is what
    the runtime raises on a property read of [undefined] or [null]; [Failure]
    stands for the errors of the collaborators (port allocator, providers,
    proxy process). *)
Inductive Error :=
  | TypeError (msg : string)
  | Failure (msg : string).

#[global] Instance Error_eq_dec : EqDecision Error.
Proof. solve_decision. Defined.

(** Truthiness of the values that the code tests in a condition.  [None]
    stands for [undefined] and [null]. *)
Definition truthy_number (n : option Z) : bool :=
  match n with
  | Some z => negb (z =? 0)
  | None => false
  end.

Definition truthy_string (s : option string) : bool :=
  match s with
  | Some s => negb (String.eqb s EmptyString)
  | None => false
  end.

(** Interpolation of a value into a template string. *)
Definition show_number (n : option Z) : string :=
  match n with
  | Some z => pretty z
  | None => "undefined"
  end.

(** ** Data records *)

(** Modelled from the spec: [ClusterPreferences] is declared in [./cluster],
    which is not among the sources.  The specification lists an optional
    telemetry provider override, an optional telemetry service location
    (namespace, service name, port), an optional display name and an
    optional outbound proxy setting; the members are named as the handler
    reads them. *)
Module PrometheusProviderPreference.
Record t := mk { type : string }.
End PrometheusProviderPreference.

Module PrometheusPreference.
Record t := mk { namespace : string; service : string; port : Z; prefix : string }.
End PrometheusPreference.

Module ClusterPreferences.
Record t := mk {
  prometheusProvider : option PrometheusProviderPreference.t;
  prometheus : option PrometheusPreference.t;
  clusterName : option string;
  httpsProxy : option string
}.
End ClusterPreferences.

#[global] Instance PrometheusProviderPreference_eq_dec :
  EqDecision PrometheusProviderPreference.t.
Proof. solve_decision. Defined.
#[global] Instance PrometheusPreference_eq_dec : EqDecision PrometheusPreference.t.
Proof. solve_decision. Defined.
#[global] Instance ClusterPreferences_eq_dec : EqDecision ClusterPreferences.t.
Proof. solve_decision. Defined.

(** Modelled from the spec: [ClusterBaseInfo] is declared in
    [../main/cluster], which is not among the sources.  Its persisted
    members are the five that the specification lists for a cluster record
    and that [storeCluster] copies; [port] is what a cluster object carries
    besides them at run time. *)
Module ClusterBaseInfo.
Record t := mk {
  id : string;
  kubeConfigPath : string;
  contextName : string;
  preferences : option ClusterPreferences.t;
  port : option Z;
  workspace : option string
}.
End ClusterBaseInfo.

#[global] Instance ClusterBaseInfo_eq_dec : EqDecision ClusterBaseInfo.t.
Proof. solve_decision. Defined.

(** ** The cluster store *)

Module ClusterStore.
Import ClusterBaseInfo.

(** What a key of the underlying [ElectronStore] holds: the array under
    ["clusters"], or a single record under a cluster id (the layout that
    [removeCluster] still clears). *)
Inductive StoreValue :=
  | Clusters (l : list ClusterBaseInfo.t)
  | Legacy (c : ClusterBaseInfo.t).

Record t := mk { store : gmap string StoreValue }.

(** [this.store.get("clusters", [])] *)
Definition getAllClusters (s : t) : list ClusterBaseInfo.t :=
  match store s !! "clusters"%string with
  | Some (Clusters l) => l
  | _ => []
  end.

(** [clusters.findIndex((cl) => cl.id === id)]; [None] is [-1]. *)
Definition findIndex (ident : string) (clusters : list ClusterBaseInfo.t) : option nat :=
  fst <$> list_find (λ cl, id cl = ident) clusters.

Definition set_clusters (l : list ClusterBaseInfo.t) (s : t) : t :=
  mk (<["clusters"%string := Clusters l]> (store s)).

Definition removeCluster (ident : string) (s : t) : t :=
  let s := mk (delete ident (store s)) in
  let clusterBaseInfos := getAllClusters s in
  match findIndex ident clusterBaseInfos with
  | Some index => set_clusters (delete index clusterBaseInfos) s
  | None => s
  end.

Definition removeClustersByWorkspace (w : string) (s : t) : t :=
  foldl (λ s cluster,
           if decide (workspace cluster = Some w) then removeCluster (id cluster) s else s)
        s (getAllClusters s).

Definition storable (cluster : ClusterBaseInfo.t) : ClusterBaseInfo.t :=
  {| id := id cluster;
     kubeConfigPath := kubeConfigPath cluster;
     contextName := contextName cluster;
     preferences := preferences cluster;
     port := None;
     workspace := workspace cluster |}.

Definition storeCluster (cluster : ClusterBaseInfo.t) (s : t) : t :=
  let clusters := getAllClusters s in
  let index := findIndex (id cluster) clusters in
  let clusters :=
    match index with
    | None => clusters ++ [storable cluster]
    | Some index => <[index := storable cluster]> clusters
    end in
  set_clusters clusters s.

Definition storeClusters (clusters : list ClusterBaseInfo.t) (s : t) : t :=
  foldl (λ s cluster, storeCluster cluster (removeCluster (id cluster) s)) s clusters.

(** [find((cluster) => cluster.id === id)] over the stored records, as
    [getCluster] does before it wraps the record. *)
Definition lookupCluster (ident : string) (s : t) : option ClusterBaseInfo.t :=
  snd <$> list_find (λ cl, id cl = ident) (getAllClusters s).

(** No two stored records have the same [id]. *)
Definition unique_ids (s : t) : Prop := NoDup (id <$> getAllClusters s).

(** The records of an id, and the records of the other ids. *)
Definition with_id (ident : string) (l : list ClusterBaseInfo.t) : list ClusterBaseInfo.t :=
  filter (λ cl, id cl = ident) l.
Definition without_id (ident : string) (l : list ClusterBaseInfo.t) : list ClusterBaseInfo.t :=
  filter (λ cl, ¬ id cl = ident) l.
End ClusterStore.


(** ** Collaborators of the context handler *)

(** [url.UrlWithStringQuery], the result of [url.parse]: the members the
    handler reads, and [host], which unlike [hostname] keeps the port. *)
Module Url.
Record t := mk {
  protocol : option string;
  host : option string;
  hostname : option string;
  path : option string
}.
End Url.

(** [KubeConfig] of the Kubernetes client: contexts and clusters by name. *)
Module KubeContext.
Record t := mk { name : string; cluster : string; namespace : option string }.
End KubeContext.

Module KubeCluster.
Record t := mk { name : string; server : string }.
End KubeCluster.

Module KubeConfig.
Record t := mk {
  contexts : list KubeContext.t;
  clusters : list KubeCluster.t;
  currentContext : option string
}.

Definition setCurrentContext (context : string) (kc : t) : t :=
  mk (contexts kc) (clusters kc) (Some context).

Definition getContextObject (n : option string) (kc : t) : option KubeContext.t :=
  snd <$> list_find (λ c, Some (KubeContext.name c) = n) (contexts kc).

Definition getCluster (n : string) (kc : t) : option KubeCluster.t :=
  snd <$> list_find (λ c, KubeCluster.name c = n) (clusters kc).

(** [null] when the current context or its cluster is not in the file. *)
Definition getCurrentCluster (kc : t) : option KubeCluster.t :=
  match getContextObject (currentContext kc) kc with
  | Some context => getCluster (KubeContext.cluster context) kc
  | None => None
  end.
End KubeConfig.

(** Modelled from the spec: the class [Cluster] is declared in [./cluster],
    which is not among the sources.  These are the members that the handler
    reads: the identity and preferences of the specification's cluster
    record, the port that the constructor interpolates, and the path that
    [proxyKubeconfigPath()] returns. *)
Module Cluster.
Record t := mk {
  id : string;
  contextName : string;
  port : option Z;
  preferences : option ClusterPreferences.t;
  proxyKubeconfigPath : string
}.
End Cluster.

(** Modelled from the spec: [PrometheusService] and [PrometheusProvider]
    are declared in [./prometheus/provider-registry], which is not among the
    sources.  A service is the specification's service location with the
    identifier of the provider that found it. *)
Module PrometheusService.
Record t := mk { id : string; namespace : string; service : string; port : Z }.
End PrometheusService.

#[global] Instance PrometheusService_eq_dec : EqDecision PrometheusService.t.
Proof. solve_decision. Defined.

(** Modelled from the spec: a registered provider, [probe(apiClient) ->
    ServiceLocation|absent] in the specification.  Its probe queries the
    live cluster; the model takes its outcome as a function of the number of
    probes that the handler issued before it, so that the answer may change
    from one call to the next: a service, [None] for no match, or the
    rejection of the probe. *)
Module PrometheusProvider.
Record t := mk {
  id : string;
  getPrometheusService : nat → Error + option PrometheusService.t
}.
End PrometheusProvider.

(** [ServerOptions] of [http-proxy], as [newApiTarget] fills it. *)
Module ProxyTarget.
Record t := mk { port : Z; protocol : string; host : string; path : option string }.
End ProxyTarget.

Module ServerOptions.
Record t := mk {
  changeOrigin : bool;
  timeout : Z;
  headers : gmap string (option string);
  target : ProxyTarget.t
}.
End ServerOptions.

(** Modelled from the spec: the class [KubeAuthProxy] of [./kube-auth-proxy]
    is not among the sources.  The specification gives the proxy process
    collaborator as [start(cluster, port, env) -> handle], [handle.stop()]
    and [handle.lastError]; the handler uses it through the constructor,
    [run()], [exit()] and [lastError].  [started] records that [run()]
    spawned the child process and [exited] that [exit()] ended it. *)
Module KubeAuthProxy.
Record t := mk {
  cluster : Cluster.t;
  port : Z;
  env : gmap string string;
  started : bool;
  exited : bool;
  lastError : option Error
}.

Definition create (c : Cluster.t) (p : Z) (e : gmap string string) : t :=
  mk c p e false false None.

Definition run (x : t) : t :=
  mk (cluster x) (port x) (env x) true (exited x) (lastError x).

Definition exit (x : t) : t :=
  mk (cluster x) (port x) (env x) (started x) true (lastError x).

Definition live (x : t) : bool := started x && negb (exited x).
End KubeAuthProxy.

(** What surrounds a handler and is fixed during its lifetime, taken as
    parameters: the port allocator [getFreePort] of [./port] (the outcome
    of its n-th invocation, a port or [NoFreePortError]), the registered
    providers of [../common/prometheus-providers], [url.parse],
    [process.env], and the outcome of [run()] for the n-th proxy object
    ([None]: it resolved). *)
Module Env.
Record t := mk {
  getFreePort : nat → Error + Z;
  prometheusProviders : list PrometheusProvider.t;
  url_parse : string → Url.t;
  process_env : gmap string string;
  run_outcome : nat → option Error
}.
End Env.

(** The effects of a handler's methods outside the handler object.  Objects
    that the code compares by identity or mutates through a reference live
    in a heap and are denoted by their index in it. *)
Module World.
Record t := mk {
  allocations : nat;                 (* invocations of getFreePort so far *)
  probes : list string;              (* ids of the providers probed, in order *)
  targets : list ServerOptions.t;    (* descriptors built by newApiTarget *)
  proxies : list KubeAuthProxy.t;    (* proxy objects constructed *)
  errors : list Error;               (* logger.error *)
  infos : list string                (* logger.info *)
}.

Definition set_allocations v (w : t) : t :=
  mk v (probes w) (targets w) (proxies w) (errors w) (infos w).
Definition set_probes v (w : t) : t :=
  mk (allocations w) v (targets w) (proxies w) (errors w) (infos w).
Definition set_targets v (w : t) : t :=
  mk (allocations w) (probes w) v (proxies w) (errors w) (infos w).
Definition set_proxies v (w : t) : t :=
  mk (allocations w) (probes w) (targets w) v (errors w) (infos w).
Definition set_errors v (w : t) : t :=
  mk (allocations w) (probes w) (targets w) (proxies w) v (infos w).
Definition set_infos v (w : t) : t :=
  mk (allocations w) (probes w) (targets w) (proxies w) (errors w) v.
End World.


(** ** The context handler *)

Module ContextHandler.

(** The members of the class that its methods read or write.  A member
    without an initializer is [None] until it is first assigned; [apiTarget]
    and [proxyServer] refer to objects of [World.targets] and
    [World.proxies]. *)
Record t := mk {
  contextName : string;
  id : string;
  url : string;
  kc : KubeConfig.t;
  cluster : Cluster.t;
  apiTarget : option nat;
  clusterUrl : Url.t;
  proxyServer : option nat;
  defaultNamespace : option string;
  proxyPort : option Z;
  kubernetesApi : string;
  prometheusProvider : option string;
  prometheusPath : option string;
  clusterName : option string
}.

Definition set_apiTarget v (h : t) : t :=
  mk (contextName h) (id h) (url h) (kc h) (cluster h) v (clusterUrl h) (proxyServer h)
     (defaultNamespace h) (proxyPort h) (kubernetesApi h) (prometheusProvider h)
     (prometheusPath h) (clusterName h).
Definition set_proxyServer v (h : t) : t :=
  mk (contextName h) (id h) (url h) (kc h) (cluster h) (apiTarget h) (clusterUrl h) v
     (defaultNamespace h) (proxyPort h) (kubernetesApi h) (prometheusProvider h)
     (prometheusPath h) (clusterName h).
Definition set_proxyPort v (h : t) : t :=
  mk (contextName h) (id h) (url h) (kc h) (cluster h) (apiTarget h) (clusterUrl h)
     (proxyServer h) (defaultNamespace h) v (kubernetesApi h) (prometheusProvider h)
     (prometheusPath h) (clusterName h).
Definition set_prometheusProvider v (h : t) : t :=
  mk (contextName h) (id h) (url h) (kc h) (cluster h) (apiTarget h) (clusterUrl h)
     (proxyServer h) (defaultNamespace h) (proxyPort h) (kubernetesApi h) v
     (prometheusPath h) (clusterName h).
Definition set_prometheusPath v (h : t) : t :=
  mk (contextName h) (id h) (url h) (kc h) (cluster h) (apiTarget h) (clusterUrl h)
     (proxyServer h) (defaultNamespace h) (proxyPort h) (kubernetesApi h)
     (prometheusProvider h) v (clusterName h).
Definition set_clusterName v (h : t) : t :=
  mk (contextName h) (id h) (url h) (kc h) (cluster h) (apiTarget h) (clusterUrl h)
     (proxyServer h) (defaultNamespace h) (proxyPort h) (kubernetesApi h)
     (prometheusProvider h) (prometheusPath h) v.

(** *** Methods as computations

    A method runs on the handler object and the world and either returns or
    throws; what it wrote before it threw stays written.  An [await] of a
    sequential caller is the bind of this monad. *)
Record State := mkState { this : t; world : World.t }.

Definition M (A : Type) : Type := State → (Error + A) * State.

Definition ret {A} (a : A) : M A := λ st, (inr a, st).
Definition throw {A} (e : Error) : M A := λ st, (inl e, st).
Definition bind {A B} (m : M A) (k : A → M B) : M B :=
  λ st, match m st with
        | (inr a, st') => k a st'
        | (inl e, st') => (inl e, st')
        end.
Definition catch {A} (m : M A) (handler : Error → M A) : M A :=
  λ st, match m st with
        | (inl e, st') => handler e st'
        | r => r
        end.
Definition settled {A} (r : Error + A) : M A := λ st, (r, st).
Definition get_this : M t := λ st, (inr (this st), st).
Definition get_world : M World.t := λ st, (inr (world st), st).
Definition update (f : t → t) : M unit := λ st, (inr tt, mkState (f (this st)) (world st)).
Definition effect (f : World.t → World.t) : M unit :=
  λ st, (inr tt, mkState (this st) (f (world st))).

Declare Scope js_scope.
Delimit Scope js_scope with js.
Notation "x <- y ;; z" := (bind y (λ x, z))
  (at level 20, y at level 99, z at level 200, only parsing) : js_scope.
Notation "y ;; z" := (bind y (λ _, z))
  (at level 100, z at level 200, only parsing, right associativity) : js_scope.
Open Scope js_scope.

Definition logger_error (e : Error) : M unit :=
  effect (λ w, World.set_errors (World.errors w ++ [e]) w).
Definition logger_info (s : string) : M unit :=
  effect (λ w, World.set_infos (World.infos w ++ [s]) w).

(** *** [Promise.all]

    [latency i] is the time at which the i-th promise settles, promises of
    equal time settling in list order.  The combined promise rejects with
    the error of the promise that rejects first, and otherwise fulfils with
    the values in list order. *)
Fixpoint first_rejection {A} (latency : nat → nat) (i : nat) (rs : list (Error + A))
  : option (nat * Error) :=
  match rs with
  | [] => None
  | r :: rs =>
      let later := first_rejection latency (S i) rs in
      match r with
      | inr _ => later
      | inl e =>
          match later with
          | Some (t, e') =>
              if (t <? latency i)%nat then Some (t, e') else Some (latency i, e)
          | None => Some (latency i, e)
          end
      end
  end.

Definition fulfilled {A} (rs : list (Error + A)) : list A :=
  omap (λ r, match r with inr v => Some v | inl _ => None end) rs.

Definition Promise_all {A} (latency : nat → nat) (rs : list (Error + A)) : Error + list A :=
  match first_rejection latency 0 rs with
  | Some (_, e) => inl e
  | None => inr (fulfilled rs)
  end.

Section Methods.
Variable env : Env.t.

(** *** Preferences and construction *)

Definition setClusterPreferences (clusterPreferences : option ClusterPreferences.t) : M unit :=
  provider <- match clusterPreferences with
              | None => throw (TypeError "Cannot read property 'prometheusProvider' of undefined")
              | Some p =>
                  ret (PrometheusProviderPreference.type <$> ClusterPreferences.prometheusProvider p)
              end;;
  update (set_prometheusProvider provider);;
  match clusterPreferences ≫= ClusterPreferences.prometheus with
  | Some prom =>
      update (set_prometheusPath
                (Some (PrometheusPreference.namespace prom +:+ "/services/"
                       +:+ PrometheusPreference.service prom +:+ ":"
                       +:+ show_number (Some (PrometheusPreference.port prom)))))
  | None => update (set_prometheusPath None)
  end;;
  h <- get_this;;
  match clusterPreferences ≫= ClusterPreferences.clusterName with
  | Some n =>
      if truthy_string (Some n) then update (set_clusterName (Some n))
      else update (set_clusterName (Some (contextName h)))
  | None => update (set_clusterName (Some (contextName h)))
  end.

(** [this.kc] is the caller's object, on which the constructor sets the
    current context (l.41-42): the [kc] field holds that object as it is
    after the call, which is also what the caller's reference reads from
    then on.  [url.parse] is [Env.url_parse], a total function: a call of
    [url.parse] that throws on the server string is not modelled. *)
Definition constructor (kc : KubeConfig.t) (cluster : Cluster.t) (w : World.t)
  : Error + State :=
  let kc := KubeConfig.setCurrentContext (Cluster.contextName cluster) kc in
  match KubeConfig.getCurrentCluster kc with
  | None => inl (TypeError "Cannot read property 'server' of null")
  | Some current =>
      match KubeConfig.getContextObject (KubeConfig.currentContext kc) kc with
      | None => inl (TypeError "Cannot read property 'namespace' of null")
      | Some context =>
          let h :=
            {| contextName := Cluster.contextName cluster;
               id := Cluster.id cluster;
               url := "http://" +:+ Cluster.id cluster +:+ ".localhost:"
                      +:+ show_number (Cluster.port cluster) +:+ "/";
               kc := kc;
               cluster := cluster;
               apiTarget := None;
               clusterUrl := Env.url_parse env (KubeCluster.server current);
               proxyServer := None;
               defaultNamespace := KubeContext.namespace context;
               proxyPort := None;
               kubernetesApi := "http://127.0.0.1:" +:+ show_number (Cluster.port cluster)
                                +:+ "/" +:+ Cluster.id cluster;
               prometheusProvider := None;
               prometheusPath := None;
               clusterName := None |} in
          match setClusterPreferences (Cluster.preferences cluster) (mkState h w) with
          | (inl e, _) => inl e
          | (inr _, st) => inr st
          end
      end
  end.

(** *** The proxy port *)

(** [resolveProxyPort] up to its [await]: the memoized port, or the number
    of the allocator invocation that it issued and now waits for. *)
Definition resolveProxyPort_call : M (Z + nat) :=
  h <- get_this;;
  if truthy_number (proxyPort h) then ret (inl (default 0 (proxyPort h)))
  else
    w <- get_world;;
    effect (World.set_allocations (S (World.allocations w)));;
    ret (inr (World.allocations w)).

(** [resolveProxyPort] from the point where the allocator's promise has
    settled with [outcome]. *)
Definition resolveProxyPort_settle (outcome : Error + Z) : M Z :=
  serverPort <- catch (settled outcome) (λ error, logger_error error;; throw error);;
  update (set_proxyPort (Some serverPort));;
  ret serverPort.

Definition resolveProxyPort : M Z :=
  c <- resolveProxyPort_call;;
  match c with
  | inl port => ret port
  | inr n => resolveProxyPort_settle (Env.getFreePort env n)
  end.

Definition init : M unit := resolveProxyPort;; ret tt.

(** *** Telemetry *)

Definition default_service : PrometheusService.t :=
  {| PrometheusService.id := "lens";
     PrometheusService.namespace := "lens-metrics";
     PrometheusService.service := "prometheus";
     PrometheusService.port := 80 |}.

(** The providers that a call probes. *)
Definition candidates (h : t) : list PrometheusProvider.t :=
  if truthy_string (prometheusProvider h)
  then filter (λ p, Some (PrometheusProvider.id p) = prometheusProvider h)
              (Env.prometheusProviders env)
  else Env.prometheusProviders env.

(** Every probe is issued, in list order, before the first one settles;
    [latency] fixes the order in which they settle. *)
Definition getPrometheusService (latency : nat → nat) : M PrometheusService.t :=
  h <- get_this;;
  w <- get_world;;
  let providers := candidates h in
  let issued := length (World.probes w) in
  effect (World.set_probes (World.probes w ++ (PrometheusProvider.id <$> providers)));;
  let prometheusPromises :=
    imap (λ i provider, PrometheusProvider.getPrometheusService provider (issued + i)%nat)
         providers in
  resolvedPrometheusServices <- settled (Promise_all latency prometheusPromises);;
  match filter (λ n, is_Some n) resolvedPrometheusServices !! 0%nat with
  | Some (Some service) => ret service
  | _ => ret default_service
  end.

(** The outcomes of the probes that a call in state [st] issues, and the
    state in which that call leaves the handler. *)
Definition probe_outcomes (st : State) : list (Error + option PrometheusService.t) :=
  imap (λ i provider,
          PrometheusProvider.getPrometheusService
            provider (length (World.probes (world st)) + i)%nat)
       (candidates (this st)).

Definition probed (st : State) : State :=
  mkState (this st)
          (World.set_probes
             (World.probes (world st) ++ (PrometheusProvider.id <$> candidates (this st)))
             (world st)).

Definition resolvePrometheusPath (latency : nat → nat) : M string :=
  service <- getPrometheusService latency;;
  ret (PrometheusService.namespace service +:+ "/services/"
       +:+ PrometheusService.service service +:+ ":"
       +:+ show_number (Some (PrometheusService.port service))).

Definition getPrometheusProvider (latency : nat → nat) : M (option PrometheusProvider.t) :=
  h <- get_this;;
  (if truthy_string (prometheusProvider h) then ret tt
   else
     service <- getPrometheusService latency;;
     logger_info ("using " +:+ PrometheusService.id service +:+ " as prometheus provider");;
     update (set_prometheusProvider (Some (PrometheusService.id service))));;
  h <- get_this;;
  ret (snd <$> list_find (λ p, Some (PrometheusProvider.id p) = prometheusProvider h)
                         (Env.prometheusProviders env)).

Definition getPrometheusPath (latency : nat → nat) : M string :=
  h <- get_this;;
  match prometheusPath h with
  | Some p =>
      if truthy_string (Some p) then ret p
      else p' <- resolvePrometheusPath latency;; update (set_prometheusPath (Some p'));; ret p'
  | None =>
      p' <- resolvePrometheusPath latency;; update (set_prometheusPath (Some p'));; ret p'
  end.

(** *** The API target *)

Definition newApiTarget (timeout : Z) : M nat :=
  h <- get_this;;
  port <- resolveProxyPort;;
  w <- get_world;;
  let descriptor :=
    {| ServerOptions.changeOrigin := true;
       ServerOptions.timeout := timeout;
       ServerOptions.headers := {[ "Host"%string := Url.hostname (clusterUrl h) ]};
       ServerOptions.target :=
         {| ProxyTarget.port := port;
            ProxyTarget.protocol := "http://";
            ProxyTarget.host := "localhost";
            ProxyTarget.path := Url.path (clusterUrl h) |} |} in
  effect (World.set_targets (World.targets w ++ [descriptor]));;
  ret (length (World.targets w)).

Definition getApiTarget (isWatchRequest : bool) : M nat :=
  h <- get_this;;
  match apiTarget h, isWatchRequest with
  | Some cached, false => ret cached
  | _, _ =>
      let timeout := if isWatchRequest then 4 * 60 * 60 * 1000 else 30000 in
      apiTarget <- newApiTarget timeout;;
      (if isWatchRequest then ret tt else update (set_apiTarget (Some apiTarget)));;
      ret apiTarget
  end.

(** *** Headers and the kubeconfig scope *)

Definition applyHeaders (h : t) (headers : gmap string string) : gmap string string :=
  <["authorization"%string := "Bearer " +:+ id h]> headers.

Definition withTemporaryKubeconfig {A} (callback : string → M A) : M unit :=
  h <- get_this;;
  catch (callback (Cluster.proxyKubeconfigPath (cluster h));; ret tt)
        (λ error, throw error).

(** *** The proxy process *)

Definition run_proxy (r : nat) : M unit :=
  effect (λ w, World.set_proxies (alter KubeAuthProxy.run r (World.proxies w)) w);;
  match Env.run_outcome env r with
  | Some e => throw e
  | None => ret tt
  end.

Definition ensureServer : M unit :=
  h <- get_this;;
  match proxyServer h with
  | Some _ => ret tt
  | None =>
      proxyPort <- resolveProxyPort;;
      let proxyEnv := Env.process_env env in
      let proxyEnv :=
        match Cluster.preferences (cluster h) ≫= ClusterPreferences.httpsProxy with
        | Some p => if truthy_string (Some p)
                    then <["HTTPS_PROXY"%string := p]> proxyEnv else proxyEnv
        | None => proxyEnv
        end in
      w <- get_world;;
      let r := length (World.proxies w) in
      effect (World.set_proxies
                (World.proxies w ++ [KubeAuthProxy.create (cluster h) proxyPort proxyEnv]));;
      update (set_proxyServer (Some r));;
      run_proxy r
  end.

Definition stopServer : M unit :=
  h <- get_this;;
  match proxyServer h with
  | Some r =>
      effect (λ w, World.set_proxies (alter KubeAuthProxy.exit r (World.proxies w)) w);;
      update (set_proxyServer None)
  | None => ret tt
  end.

Definition proxyServerError : M (option Error) :=
  h <- get_this;;
  match proxyServer h with
  | None => ret None
  | Some r => w <- get_world;; ret (World.proxies w !! r ≫= KubeAuthProxy.lastError)
  end.

(** *** Sequences of calls

    The calls that a client makes on a handler, each awaited before the next
    one is made; a call that throws leaves the handler as it was when it
    threw. *)
Inductive Op :=
  | Init
  | SetClusterPreferences (preferences : option ClusterPreferences.t)
  | GetPrometheusProvider (latency : nat → nat)
  | GetPrometheusService (latency : nat → nat)
  | GetPrometheusPath (latency : nat → nat)
  | GetApiTarget (isWatchRequest : bool)
  | ResolveProxyPort
  | EnsureServer
  | StopServer
  | ProxyServerError.

Definition exec (op : Op) (st : State) : State :=
  match op with
  | Init => snd (init st)
  | SetClusterPreferences p => snd (setClusterPreferences p st)
  | GetPrometheusProvider latency => snd (getPrometheusProvider latency st)
  | GetPrometheusService latency => snd (getPrometheusService latency st)
  | GetPrometheusPath latency => snd (getPrometheusPath latency st)
  | GetApiTarget w => snd (getApiTarget w st)
  | ResolveProxyPort => snd (resolveProxyPort st)
  | EnsureServer => snd (ensureServer st)
  | StopServer => snd (stopServer st)
  | ProxyServerError => snd (proxyServerError st)
  end.

Definition exec_all (ops : list Op) (st : State) : State :=
  foldl (λ st op, exec op st) st ops.

(** The states of a handler: built by the constructor in a world without
    proxy objects of its own, then changed by calls of its methods. *)
Inductive reachable : State → Prop :=
  | reachable_new kc cluster w st :
      World.proxies w = [] → constructor kc cluster w = inr st → reachable st
  | reachable_exec op st : reachable st → reachable (exec op st).

(** *** Overlapping port resolutions

    Several [resolveProxyPort()] calls in flight on one handler.  [Call c]
    runs call [c] up to its [await]; [Settle c] delivers the allocator's
    answer to call [c] and runs it to its end.  [waiting] maps a suspended
    call to the allocator invocation it waits for, [returned] a finished
    call to its result. *)
Inductive Event :=
  | Call (c : nat)
  | Settle (c : nat).

Record Run := mkRun {
  state : State;
  waiting : gmap nat nat;
  returned : gmap nat (Error + Z)
}.

Definition step (r : Run) (ev : Event) : Run :=
  match ev with
  | Call c =>
      match resolveProxyPort_call (state r) with
      | (inr (inl port), st) => mkRun st (waiting r) (<[c := inr port]> (returned r))
      | (inr (inr n), st) => mkRun st (<[c := n]> (waiting r)) (returned r)
      | (inl e, st) => mkRun st (waiting r) (<[c := inl e]> (returned r))
      end
  | Settle c =>
      match waiting r !! c with
      | Some n =>
          let (result, st) := resolveProxyPort_settle (Env.getFreePort env n) (state r) in
          mkRun st (delete c (waiting r)) (<[c := result]> (returned r))
      | None => r
      end
  end.

Definition run (events : list Event) (st : State) : Run :=
  foldl step (mkRun st ∅ ∅) events.

(** *** What the calls establish

    The two states in which an allocation leaves the handler, the
    descriptor that [newApiTarget] builds, and the conditions that hold of
    every state of a handler. *)
Definition allocated (port : Z) (st : State) : State :=
  mkState (set_proxyPort (Some port) (this st))
          (World.set_allocations (S (World.allocations (world st))) (world st)).

Definition refused (e : Error) (st : State) : State :=
  mkState (this st)
          (World.set_errors (World.errors (world st) ++ [e])
             (World.set_allocations (S (World.allocations (world st))) (world st))).

Definition descriptor (u : Url.t) (timeout port : Z) : ServerOptions.t :=
  {| ServerOptions.changeOrigin := true;
     ServerOptions.timeout := timeout;
     ServerOptions.headers := {[ "Host"%string := Url.hostname u ]};
     ServerOptions.target :=
       {| ProxyTarget.port := port;
          ProxyTarget.protocol := "http://";
          ProxyTarget.host := "localhost";
          ProxyTarget.path := Url.path u |} |}.

(** The allocator hands out usable TCP ports, never port 0. *)
Definition ports_nonzero : Prop := ∀ n, Env.getFreePort env n ≠ inr 0.

(** The cached target is a descriptor built for a non-watch request. *)
Definition cache_ok (st : State) : Prop :=
  ∀ r, apiTarget (this st) = Some r →
       ∃ port, World.targets (world st) !! r
               = Some (descriptor (clusterUrl (this st)) 30000 port).

(** The cached target points at the handler's port. *)
Definition cache_port_ok (st : State) : Prop :=
  ∀ r d, apiTarget (this st) = Some r → World.targets (world st) !! r = Some d →
         proxyPort (this st) = Some (ProxyTarget.port (ServerOptions.target d)) ∧
         ProxyTarget.port (ServerOptions.target d) ≠ 0.

(** A proxy object whose process runs is the one the handler holds. *)
Definition one_process (st : State) : Prop :=
  ∀ i x, World.proxies (world st) !! i = Some x → KubeAuthProxy.live x = true →
         proxyServer (this st) = Some i.

(** The proxy object that the handler holds exists, has been run and has
    not been told to exit. *)
Definition held_ok (st : State) : Prop :=
  ∀ r, proxyServer (this st) = Some r →
       ∃ x, World.proxies (world st) !! r = Some x ∧ KubeAuthProxy.live x = true.

(** Calls made one after the other, each settled before the next is made. *)
Definition awaited (calls : list nat) : list Event :=
  calls ≫= λ c, [Call c; Settle c].

End Methods.
End ContextHandler.


(** ** Concrete inputs

    A kubeconfig with one context, a cluster record, three providers [A],
    [B] and [C], and an allocator that hands out 49152, 49153, ... *)
Module Sample.
Import ContextHandler.

Definition service (i : string) : PrometheusService.t :=
  {| PrometheusService.id := i;
     PrometheusService.namespace := "monitoring";
     PrometheusService.service := "prometheus-server";
     PrometheusService.port := 9090 |}.

Definition provider (i : string) (outcome : Error + option PrometheusService.t)
  : PrometheusProvider.t :=
  {| PrometheusProvider.id := i;
     PrometheusProvider.getPrometheusService := λ _, outcome |}.

Definition parsed : Url.t :=
  {| Url.protocol := Some "https:"%string;
     Url.host := Some "k8s.example.com:6443"%string;
     Url.hostname := Some "k8s.example.com"%string;
     Url.path := Some "/"%string |}.

Definition env_with (providers : list PrometheusProvider.t) : Env.t :=
  {| Env.getFreePort := λ n, inr (49152 + Z.of_nat n);
     Env.prometheusProviders := providers;
     Env.url_parse := λ _, parsed;
     Env.process_env := ∅;
     Env.run_outcome := λ _, None |}.

(** [A] finds nothing, [B] and [C] both find a service. *)
Definition env : Env.t :=
  env_with [provider "A" (inr None);
            provider "B" (inr (Some (service "B")));
            provider "C" (inr (Some (service "C")))].

(** The probe of [A] is rejected, [B] finds a service. *)
Definition env_failing : Env.t :=
  env_with [provider "A" (inl (Failure "connect ECONNREFUSED"));
            provider "B" (inr (Some (service "B")))].

(** [A] finds nothing, [B] finds a service, the probe of [C] is rejected. *)
Definition env_rejected_last : Env.t :=
  env_with [provider "A" (inr None);
            provider "B" (inr (Some (service "B")));
            provider "C" (inl (Failure "connect ETIMEDOUT"))].

(** No provider finds anything. *)
Definition env_silent : Env.t :=
  env_with [provider "A" (inr None); provider "B" (inr None)].

Definition kubeconfig : KubeConfig.t :=
  {| KubeConfig.contexts :=
       [{| KubeContext.name := "minikube"; KubeContext.cluster := "minikube";
           KubeContext.namespace := None |}];
     KubeConfig.clusters :=
       [{| KubeCluster.name := "minikube";
           KubeCluster.server := "https://k8s.example.com:6443/" |}];
     KubeConfig.currentContext := None |}.

Definition no_preferences : ClusterPreferences.t :=
  {| ClusterPreferences.prometheusProvider := None;
     ClusterPreferences.prometheus := None;
     ClusterPreferences.clusterName := None;
     ClusterPreferences.httpsProxy := None |}.

Definition cluster_with (p : option ClusterPreferences.t) : Cluster.t :=
  {| Cluster.id := "c1";
     Cluster.contextName := "minikube";
     Cluster.port := Some 9000;
     Cluster.preferences := p;
     Cluster.proxyKubeconfigPath := "/data/kubeconfigs/c1" |}.

Definition fresh_world : World.t :=
  {| World.allocations := 0; World.probes := []; World.targets := [];
     World.proxies := []; World.errors := []; World.infos := [] |}.

(** The handler that the constructor builds from these, before any call. *)
Definition handler : ContextHandler.t :=
  {| contextName := "minikube";
     id := "c1";
     url := "http://c1.localhost:9000/";
     kc := KubeConfig.setCurrentContext "minikube" kubeconfig;
     cluster := cluster_with (Some no_preferences);
     apiTarget := None;
     clusterUrl := parsed;
     proxyServer := None;
     defaultNamespace := None;
     proxyPort := None;
     kubernetesApi := "http://127.0.0.1:9000/c1";
     prometheusProvider := None;
     prometheusPath := None;
     clusterName := Some "minikube"%string |}.

Definition initial : State := mkState handler fresh_world.

Definition record : ClusterBaseInfo.t :=
  {| ClusterBaseInfo.id := "c1";
     ClusterBaseInfo.kubeConfigPath := "/home/u/.kube/config";
     ClusterBaseInfo.contextName := "minikube";
     ClusterBaseInfo.preferences := Some no_preferences;
     ClusterBaseInfo.port := Some 9000;
     ClusterBaseInfo.workspace := Some "default"%string |}.

(** The same cluster read from another kubeconfig, and two more clusters,
    one of them in the workspace ["lab"]. *)
Definition record_moved : ClusterBaseInfo.t :=
  {| ClusterBaseInfo.id := "c1";
     ClusterBaseInfo.kubeConfigPath := "/home/u/other.yaml";
     ClusterBaseInfo.contextName := "minikube";
     ClusterBaseInfo.preferences := None;
     ClusterBaseInfo.port := None;
     ClusterBaseInfo.workspace := Some "default"%string |}.

Definition record2 : ClusterBaseInfo.t :=
  {| ClusterBaseInfo.id := "c2";
     ClusterBaseInfo.kubeConfigPath := "/home/u/.kube/config";
     ClusterBaseInfo.contextName := "kind";
     ClusterBaseInfo.preferences := None;
     ClusterBaseInfo.port := None;
     ClusterBaseInfo.workspace := Some "lab"%string |}.

Definition record3 : ClusterBaseInfo.t :=
  {| ClusterBaseInfo.id := "c3";
     ClusterBaseInfo.kubeConfigPath := "/home/u/.kube/config";
     ClusterBaseInfo.contextName := "staging";
     ClusterBaseInfo.preferences := None;
     ClusterBaseInfo.port := None;
     ClusterBaseInfo.workspace := Some "default"%string |}.

(** A store that holds [record] and [record2]. *)
Definition store : ClusterStore.t :=
  ClusterStore.mk
    {[ "clusters"%string :=
         ClusterStore.Clusters [ClusterStore.storable record; ClusterStore.storable record2] ]}.

(** An allocator whose first answer is an error, and a proxy whose [run()]
    is rejected. *)
Definition env_exhausted : Env.t :=
  {| Env.getFreePort :=
       λ n, match n with
            | O => inl (Failure "no free port")
            | S _ => inr (49152 + Z.of_nat n)
            end;
     Env.prometheusProviders := [];
     Env.url_parse := λ _, parsed;
     Env.process_env := ∅;
     Env.run_outcome := λ _, None |}.

Definition env_crashing : Env.t :=
  {| Env.getFreePort := λ n, inr (49152 + Z.of_nat n);
     Env.prometheusProviders := [];
     Env.url_parse := λ _, parsed;
     Env.process_env := ∅;
     Env.run_outcome := λ _, Some (Failure "spawn kubectl ENOENT") |}.

(** Preferences that give the service location, and a handler on which the
    provider id ["X"] or ["B"] is pinned. *)
Definition service_preference : PrometheusPreference.t :=
  {| PrometheusPreference.namespace := "monitoring";
     PrometheusPreference.service := "prometheus-server";
     PrometheusPreference.port := 9090;
     PrometheusPreference.prefix := "/" |}.

Definition preferences_with_service : ClusterPreferences.t :=
  {| ClusterPreferences.prometheusProvider := None;
     ClusterPreferences.prometheus := Some service_preference;
     ClusterPreferences.clusterName := None;
     ClusterPreferences.httpsProxy := None |}.

Definition pinned (x : string) : State :=
  mkState (set_prometheusProvider (Some x) handler) fresh_world.
End Sample.

(** ** The specification's wording

    Statements of the specification that the code does not satisfy as they
    are worded, written over the model so that they can be put to the test. *)
Module Specified.
Import ContextHandler.

(** Overlapping [resolveProxyPort()] calls invoke the allocator exactly
    once, and all of them return the same port. *)
Definition single_flight (env : Env.t) (events : list Event) (st : State) : Prop :=
  let r := run env events st in
  World.allocations (world (state r)) = S (World.allocations (world st)) ∧
  ∃ port, ∀ c, Call c ∈ events → returned r !! c = Some (inr port).

(** A port, once resolved, never changes: a call made after some call has
    returned a port returns that port. *)
Definition port_never_changes (env : Env.t) (events : list Event) (st : State) : Prop :=
  ∀ before after c p c' result,
    events = before ++ after →
    returned (run env before st) !! c = Some (inr p) →
    Call c' ∈ after →
    returned (run env events st) !! c' = Some result →
    result = inr p.

(** With no provider pinned, the call returns the match of the first
    provider, in the order of the list, whose probe found a service:
    whatever the providers after it do, and in whatever order the probes
    settle. *)
Definition first_match_selected (env : Env.t) (latency : nat → nat) (st : State) : Prop :=
  truthy_string (prometheusProvider (this st)) = false →
  ∀ i p service,
    Env.prometheusProviders env !! i = Some p →
    PrometheusProvider.getPrometheusService p (length (World.probes (world st)) + i)%nat
      = inr (Some service) →
    (∀ j q, (j < i)%nat → Env.prometheusProviders env !! j = Some q →
            PrometheusProvider.getPrometheusService
              q (length (World.probes (world st)) + j)%nat = inr None) →
    fst (getPrometheusService env latency st) = inr service.

(** A rejected probe counts as no match, and the selection is made among
    the results of the other providers. *)
Definition recovered (rs : list (Error + option PrometheusService.t))
  : list (option PrometheusService.t) :=
  (λ r, match r with inr o => o | inl _ => None end) <$> rs.

Definition probe_errors_contained (env : Env.t) (latency : nat → nat) (st : State) : Prop :=
  fst (getPrometheusService env latency st) =
    inr match filter (λ n, is_Some n) (recovered (probe_outcomes env st)) !! 0%nat with
        | Some (Some service) => service
        | _ => default_service
        end.

(** A service found by a probe of [getPrometheusService] leaves its
    provider pinned, and the next resolution probes that provider only. *)
Definition pinned_by_resolution (env : Env.t) (latency : nat → nat) (st : State) : Prop :=
  ∀ service st',
    getPrometheusService env latency st = (inr service, st') →
    Some service ∈ recovered (probe_outcomes env st) →
    prometheusProvider (this st') = Some (PrometheusService.id service) ∧
    candidates env (this st') =
      filter (λ p, PrometheusProvider.id p = PrometheusService.id service)
             (Env.prometheusProviders env).

(** The fallback service. *)
Definition fallback : PrometheusService.t :=
  {| PrometheusService.id := "default";
     PrometheusService.namespace := "lens-metrics";
     PrometheusService.service := "prometheus";
     PrometheusService.port := 80 |}.

(** The shape of a proxy-target descriptor; the cluster URL's host is taken
    as either [hostname] or [host]. *)
Definition target_shape (h : ContextHandler.t) (d : ServerOptions.t) : Prop :=
  ServerOptions.changeOrigin d = true ∧
  (ServerOptions.headers d = {[ "Host"%string := Url.hostname (clusterUrl h) ]} ∨
   ServerOptions.headers d = {[ "Host"%string := Url.host (clusterUrl h) ]}) ∧
  proxyPort h = Some (ProxyTarget.port (ServerOptions.target d)) ∧
  ProxyTarget.protocol (ServerOptions.target d) = "http"%string ∧
  ProxyTarget.host (ServerOptions.target d) = "localhost"%string ∧
  ProxyTarget.path (ServerOptions.target d) = Url.path (clusterUrl h).
End Specified.


(** * Properties *)

(** ** The cluster store *)

Module ClusterStoreFacts.
Import ClusterBaseInfo ClusterStore.

Lemma getAllClusters_set_clusters l s : getAllClusters (set_clusters l s) = l.
Proof. unfold getAllClusters, set_clusters; simpl. by rewrite lookup_insert_eq. Qed.

Section Find.
Context {A : Type} (P : A → Prop) `{!∀ x, Decision (P x)}.

Lemma list_find_snoc_new (l : list A) (x : A) :
  list_find P l = None → P x → list_find P (l ++ [x]) = Some (length l, x).
Proof.
  intros Hnone Hx. apply list_find_Some. split_and!.
  - by rewrite lookup_app_r, Nat.sub_diag.
  - done.
  - intros j y Hj Hlt. rewrite lookup_app_l in Hj by done.
    apply list_find_None in Hnone.
    eapply Forall_lookup_1 in Hnone; eauto.
Qed.

Lemma list_find_insert_same (l : list A) (i : nat) (old x : A) :
  list_find P l = Some (i, old) → P x → list_find P (<[i := x]> l) = Some (i, x).
Proof.
  intros (Hi & _ & Hleast)%list_find_Some Hx. apply list_find_Some. split_and!.
  - apply list_lookup_insert_eq. by eapply lookup_lt_Some.
  - done.
  - intros j y Hj Hlt. rewrite list_lookup_insert_ne in Hj by lia. eauto.
Qed.
End Find.

(** C9. Storing a record and reading the store back gives, under the
    record's id, a record that agrees with the input on [id],
    [kubeConfigPath], [contextName], [preferences] and [workspace]: it is
    appended when the id was not in the store and it replaces the first
    record of that id, in place, when it was. *)
Theorem storeCluster_roundtrip (s : ClusterStore.t) (cluster : ClusterBaseInfo.t) :
  let s' := storeCluster cluster s in
  ∃ stored,
    lookupCluster (id cluster) s' = Some stored ∧
    stored ∈ getAllClusters s' ∧
    id stored = id cluster ∧
    kubeConfigPath stored = kubeConfigPath cluster ∧
    contextName stored = contextName cluster ∧
    preferences stored = preferences cluster ∧
    workspace stored = workspace cluster ∧
    match findIndex (id cluster) (getAllClusters s) with
    | None => getAllClusters s' = getAllClusters s ++ [stored]
    | Some index => getAllClusters s' = <[index := stored]> (getAllClusters s)
    end.
Proof.
  intros s'. exists (storable cluster).
  assert (Hshape : match findIndex (id cluster) (getAllClusters s) with
                   | None => getAllClusters s' = getAllClusters s ++ [storable cluster]
                   | Some index =>
                       getAllClusters s' = <[index := storable cluster]> (getAllClusters s)
                   end).
  { subst s'. unfold storeCluster. rewrite getAllClusters_set_clusters.
    by destruct (findIndex _ _). }
  assert (Hfind : ∃ i, list_find (λ cl, id cl = id cluster) (getAllClusters s')
                       = Some (i, storable cluster)).
  { unfold findIndex in Hshape.
    destruct (list_find _ (getAllClusters s)) as [[i old]|] eqn:Hf; simpl in Hshape;
      rewrite Hshape.
    - exists i. by eapply list_find_insert_same.
    - eexists. by apply list_find_snoc_new. }
  destruct Hfind as [i Hfind].
  split_and!; try done.
  - unfold lookupCluster. by rewrite Hfind.
  - apply list_find_Some in Hfind as (Hi & _). by eapply list_elem_of_lookup_2.
Qed.

End ClusterStoreFacts.


(** ** The context handler *)

Module ContextHandlerFacts.
Import ContextHandler.

Ltac unfold_m :=
  unfold bind, ret, throw, catch, settled, get_this, get_world, update, effect,
    logger_error, logger_info in *.

(** *** [Promise.all] *)

Section PromiseAll.
Context {A : Type} (latency : nat → nat).
Implicit Types rs : list (Error + A).

Lemma first_rejection_None i rs :
  (∀ j e, rs !! j = Some (inl e) → False) → first_rejection latency i rs = None.
Proof.
  revert i. induction rs as [|r rs IH]; intros i Hrs; simpl; [done|].
  destruct r as [e|v].
  - exfalso. by apply (Hrs 0%nat e).
  - apply IH. intros j e Hj. by apply (Hrs (S j) e).
Qed.

Lemma first_rejection_rejected i rs x :
  first_rejection latency i rs = Some x → ∃ j e, rs !! j = Some (inl e).
Proof.
  revert i x. induction rs as [|r rs IH]; intros i x Hx; [done|].
  destruct r as [e|v].
  - by exists 0%nat, e.
  - simpl in Hx. destruct (IH _ _ Hx) as (j & e & Hj). by exists (S j), e.
Qed.

Lemma first_rejection_Some i rs j e :
  rs !! j = Some (inl e) →
  ∃ k e', first_rejection latency i rs = Some (latency (i + k), e') ∧
          rs !! k = Some (inl e') ∧
          ∀ k' e'', rs !! k' = Some (inl e'') → (latency (i + k) ≤ latency (i + k'))%nat.
Proof.
  revert i j e. induction rs as [|r rs IH]; intros i j e Hj; [done|]. simpl.
  destruct (first_rejection latency (S i) rs) as [[t e1]|] eqn:Hlater.
  - assert (∃ k, t = latency (S i + k) ∧ rs !! k = Some (inl e1) ∧
                 ∀ k' e'', rs !! k' = Some (inl e'') →
                           (latency (S i + k) ≤ latency (S i + k'))%nat) as (k & -> & Hk & Hmin).
    { destruct (first_rejection_rejected _ _ _ Hlater) as (k0 & e0 & Hk0).
      destruct (IH (S i) k0 e0 Hk0) as (k & e' & Heq & Hk & Hmin).
      rewrite Hlater in Heq. injection Heq as -> ->. eauto. }
    destruct r as [e0|v].
    + destruct (Nat.ltb_spec (latency (S i + k)) (latency i)) as [Hlt|Hge].
      * exists (S k), e1. rewrite Nat.add_succ_r. split_and!; [done..|].
        intros [|k'] e'' Hk'; rewrite ?Nat.add_succ_r, ?Nat.add_0_r; simpl in *;
          [lia|exact (Hmin k' e'' Hk')].
      * exists 0%nat, e0. rewrite Nat.add_0_r. split_and!; [done..|].
        intros [|k'] e'' Hk'; rewrite ?Nat.add_succ_r, ?Nat.add_0_r; simpl in *;
          [lia|]. specialize (Hmin k' e'' Hk'). simpl in Hmin. lia.
    + exists (S k), e1. rewrite Nat.add_succ_r. split_and!; [done..|].
      intros [|k'] e'' Hk'; rewrite ?Nat.add_succ_r; simpl in *;
        [done|exact (Hmin k' e'' Hk')].
  - destruct r as [e0|v].
    + exists 0%nat, e0. rewrite Nat.add_0_r. split_and!; [done..|].
      intros [|k'] e'' Hk'; simpl in Hk'; [by rewrite Nat.add_0_r|].
      exfalso. destruct (IH (S i) k' e'' Hk') as (? & ? & Heq & _). congruence.
    + destruct j as [|j]; [done|]. simpl in Hj.
      destruct (IH (S i) j e Hj) as (? & ? & Heq & _). congruence.
Qed.

Lemma fulfilled_lookup rs j v :
  (∀ k e, rs !! k = Some (inl e) → False) →
  rs !! j = Some (inr v) → fulfilled rs !! j = Some v.
Proof.
  unfold fulfilled. revert j. induction rs as [|r rs IH]; intros j Hrs Hj; [done|].
  destruct r as [e|v0].
  - exfalso. by apply (Hrs 0%nat e).
  - simpl. destruct j as [|j]; simpl in *; [congruence|].
    apply IH; [|done]. intros k e Hk. by apply (Hrs (S k) e).
Qed.

Lemma fulfilled_length rs :
  (∀ k e, rs !! k = Some (inl e) → False) → length (fulfilled rs) = length rs.
Proof.
  unfold fulfilled. induction rs as [|r rs IH]; intros Hrs; [done|].
  destruct r as [e|v0].
  - exfalso. by apply (Hrs 0%nat e).
  - simpl. f_equal. apply IH. intros k e Hk. by apply (Hrs (S k) e).
Qed.
End PromiseAll.

(** [filter(n => n)[0]]: the first present value in list order. *)
Lemma first_present {A} (l : list (option A)) (i : nat) (x : A) :
  l !! i = Some (Some x) →
  (∀ j, (j < i)%nat → l !! j = Some None) →
  filter (λ n, is_Some n) l !! 0%nat = Some (Some x).
Proof.
  revert i. induction l as [|o l IH]; intros i Hi Hbefore; [done|].
  destruct i as [|i]; simpl in Hi.
  - injection Hi as ->. by rewrite filter_cons_True.
  - assert (o = None) as ->.
    { specialize (Hbefore 0%nat ltac:(lia)). simpl in Hbefore. congruence. }
    rewrite filter_cons_False by (by intros [? ?]).
    apply (IH i); [done|]. intros j Hj. apply (Hbefore (S j)). lia.
Qed.

Lemma none_present {A} (l : list (option A)) :
  (∀ j o, l !! j = Some o → o = None) → filter (λ n, is_Some n) l = [].
Proof.
  induction l as [|o l IH]; intros Hl; [done|].
  assert (o = None) as -> by (by apply (Hl 0%nat)).
  rewrite filter_cons_False by (by intros [? ?]).
  apply IH. intros j o Hj. by apply (Hl (S j)).
Qed.

(** *** Telemetry resolution *)

Section Telemetry.
Variable env : Env.t.
Implicit Types (st : State) (latency : nat → nat).

Lemma getPrometheusService_unfold latency st :
  getPrometheusService env latency st =
  match Promise_all latency (probe_outcomes env st) with
  | inl e => (inl e, probed env st)
  | inr resolved =>
      (inr match filter (λ n, is_Some n) resolved !! 0%nat with
           | Some (Some service) => service
           | _ => default_service
           end, probed env st)
  end.
Proof.
  unfold getPrometheusService, probe_outcomes, probed. unfold_m.
  destruct st as [h w]; simpl.
  destruct (Promise_all _ _) as [e|resolved]; [done|].
  by destruct (filter _ resolved !! 0%nat) as [[?|]|].
Qed.

Lemma probe_outcomes_lookup st i :
  probe_outcomes env st !! i =
  (λ p, PrometheusProvider.getPrometheusService
          p (length (World.probes (world st)) + i)%nat) <$> candidates env (this st) !! i.
Proof. unfold probe_outcomes. by rewrite list_lookup_imap. Qed.

Lemma candidates_unpinned h :
  truthy_string (prometheusProvider h) = false →
  candidates env h = Env.prometheusProviders env.
Proof. unfold candidates. by intros ->. Qed.

Lemma getPrometheusService_this latency st :
  this (snd (getPrometheusService env latency st)) = this st.
Proof.
  rewrite getPrometheusService_unfold. by destruct (Promise_all _ _).
Qed.

Lemma getPrometheusService_world latency st :
  world (snd (getPrometheusService env latency st)) = world (probed env st).
Proof.
  rewrite getPrometheusService_unfold. by destruct (Promise_all _ _).
Qed.

(** When every probe returns, the call returns too. *)
Lemma getPrometheusService_returns latency st :
  (∀ j e, probe_outcomes env st !! j = Some (inl e) → False) →
  ∃ service, getPrometheusService env latency st = (inr service, probed env st).
Proof.
  intros Hret. rewrite getPrometheusService_unfold. unfold Promise_all.
  rewrite first_rejection_None by done. eauto.
Qed.

(** C3 (as the code has it). With no provider pinned the whole provider
    list is probed, and when no probe is rejected the call returns the
    service of the first provider, in the order of the list, whose probe
    found one: whatever the order in which the probes settle and whatever
    the later providers found. *)
Theorem getPrometheusService_first_in_order latency st i p service :
  truthy_string (prometheusProvider (this st)) = false →
  (∀ j q e, Env.prometheusProviders env !! j = Some q →
            PrometheusProvider.getPrometheusService
              q (length (World.probes (world st)) + j)%nat ≠ inl e) →
  Env.prometheusProviders env !! i = Some p →
  PrometheusProvider.getPrometheusService p (length (World.probes (world st)) + i)%nat
    = inr (Some service) →
  (∀ j q, (j < i)%nat → Env.prometheusProviders env !! j = Some q →
          PrometheusProvider.getPrometheusService
            q (length (World.probes (world st)) + j)%nat = inr None) →
  fst (getPrometheusService env latency st) = inr service ∧
  World.probes (world (snd (getPrometheusService env latency st))) =
    World.probes (world st) ++ (PrometheusProvider.id <$> Env.prometheusProviders env).
Proof.
  intros Hunpinned Hret Hp Hfound Hbefore.
  assert (Hall : ∀ j e, probe_outcomes env st !! j = Some (inl e) → False).
  { intros j e. rewrite probe_outcomes_lookup, candidates_unpinned by done.
    destruct (Env.prometheusProviders env !! j) as [q|] eqn:Hq; [|done].
    simpl. intros [= Hj]. by eapply Hret. }
  split.
  - rewrite getPrometheusService_unfold. unfold Promise_all.
    rewrite first_rejection_None by done. simpl.
    erewrite (first_present _ i service); [done| |].
    + apply fulfilled_lookup; [done|].
      rewrite probe_outcomes_lookup, candidates_unpinned by done.
      by rewrite Hp; simpl; rewrite Hfound.
    + intros j Hj.
      assert (is_Some (Env.prometheusProviders env !! j)) as [q Hq].
      { apply lookup_lt_is_Some. apply lookup_lt_Some in Hp. lia. }
      apply fulfilled_lookup; [done|].
      rewrite probe_outcomes_lookup, candidates_unpinned by done.
      rewrite Hq; simpl. by rewrite (Hbefore j q).
  - rewrite getPrometheusService_world. unfold probed; simpl.
    by rewrite candidates_unpinned.
Qed.

(** C7 (as the code has it). When every probe of the call returns without
    a match, the call returns the fixed service ["lens"] in namespace
    ["lens-metrics"], service ["prometheus"], port 80. *)
Theorem getPrometheusService_default latency st :
  (∀ j p, candidates env (this st) !! j = Some p →
          PrometheusProvider.getPrometheusService
            p (length (World.probes (world st)) + j)%nat = inr None) →
  fst (getPrometheusService env latency st) =
    inr {| PrometheusService.id := "lens";
           PrometheusService.namespace := "lens-metrics";
           PrometheusService.service := "prometheus";
           PrometheusService.port := 80 |}.
Proof.
  intros Hnone.
  assert (Hall : ∀ j o, probe_outcomes env st !! j = Some o → o = inr None).
  { intros j o. rewrite probe_outcomes_lookup.
    destruct (candidates env (this st) !! j) as [q|] eqn:Hq; [|done].
    simpl. intros [= <-]. by apply Hnone. }
  assert (Hret : ∀ j e, probe_outcomes env st !! j = Some (inl e) → False).
  { intros j e Hj. by apply Hall in Hj. }
  rewrite getPrometheusService_unfold. unfold Promise_all.
  rewrite first_rejection_None by done. simpl.
  rewrite none_present; [done|].
  intros j o Hj.
  assert (is_Some (probe_outcomes env st !! j)) as [r Hr].
  { apply lookup_lt_is_Some. rewrite <- (fulfilled_length _ Hret).
    by eapply lookup_lt_Some. }
  pose proof (Hall _ _ Hr) as ->.
  pose proof (fulfilled_lookup _ j None Hret Hr). congruence.
Qed.

(** C2 (as the code has it). When the probe of a candidate is rejected, the
    call is rejected: with the error of the candidate whose probe is first
    to be rejected, whatever the other candidates found.  The handler
    object is left as it was. *)
Theorem getPrometheusService_rejects latency st i p e :
  candidates env (this st) !! i = Some p →
  PrometheusProvider.getPrometheusService p (length (World.probes (world st)) + i)%nat
    = inl e →
  ∃ k q e',
    candidates env (this st) !! k = Some q ∧
    PrometheusProvider.getPrometheusService q (length (World.probes (world st)) + k)%nat
      = inl e' ∧
    (∀ k' q' e'',
        candidates env (this st) !! k' = Some q' →
        PrometheusProvider.getPrometheusService
          q' (length (World.probes (world st)) + k')%nat = inl e'' →
        (latency k ≤ latency k')%nat) ∧
    getPrometheusService env latency st = (inl e', probed env st) ∧
    this (probed env st) = this st.
Proof.
  intros Hp He.
  assert (Hi : probe_outcomes env st !! i = Some (inl e)).
  { by rewrite probe_outcomes_lookup, Hp; simpl; rewrite He. }
  destruct (first_rejection_Some latency 0 _ _ _ Hi) as (k & e' & Hfirst & Hk & Hmin).
  rewrite probe_outcomes_lookup in Hk.
  destruct (candidates env (this st) !! k) as [q|] eqn:Hq; [|done].
  simpl in Hk. injection Hk as Hk.
  exists k, q, e'. split_and!; try done.
  - intros k' q' e'' Hq' He''. apply (Hmin k' e'').
    by rewrite probe_outcomes_lookup, Hq'; simpl; rewrite He''.
  - rewrite getPrometheusService_unfold. unfold Promise_all. by rewrite Hfirst.
Qed.
End Telemetry.

(** *** What a call does to the state *)

Section Calls.
Variable env : Env.t.
Implicit Types (st : State) (op : Op).

Lemma truthy_number_true o : truthy_number o = true ↔ ∃ p, o = Some p ∧ p ≠ 0.
Proof.
  destruct o as [p|]; simpl.
  - destruct (Z.eqb_spec p 0) as [->|Hp]; simpl; split.
    + done.
    + by intros (? & [= <-] & ?).
    + eauto.
    + done.
  - split; [done|]. by intros (? & ? & ?).
Qed.

Lemma resolveProxyPort_memoized st p :
  proxyPort (this st) = Some p → p ≠ 0 → resolveProxyPort env st = (inr p, st).
Proof.
  intros Hp Hnz. unfold resolveProxyPort, resolveProxyPort_call. unfold_m.
  rewrite Hp. simpl. by destruct (Z.eqb_spec p 0).
Qed.

Lemma resolveProxyPort_fresh st :
  truthy_number (proxyPort (this st)) = false →
  resolveProxyPort env st =
  match Env.getFreePort env (World.allocations (world st)) with
  | inr p => (inr p, allocated p st)
  | inl e => (inl e, refused e st)
  end.
Proof.
  intros Hp. unfold resolveProxyPort, resolveProxyPort_call, resolveProxyPort_settle.
  unfold_m. rewrite Hp. simpl. by destruct (Env.getFreePort _ _).
Qed.

Lemma resolveProxyPort_cases st :
  (∃ p, proxyPort (this st) = Some p ∧ p ≠ 0 ∧ resolveProxyPort env st = (inr p, st)) ∨
  (truthy_number (proxyPort (this st)) = false ∧
   ∃ p, Env.getFreePort env (World.allocations (world st)) = inr p ∧
        resolveProxyPort env st = (inr p, allocated p st)) ∨
  (truthy_number (proxyPort (this st)) = false ∧
   ∃ e, Env.getFreePort env (World.allocations (world st)) = inl e ∧
        resolveProxyPort env st = (inl e, refused e st)).
Proof.
  destruct (truthy_number (proxyPort (this st))) eqn:Ht.
  - apply truthy_number_true in Ht as (p & Hp & Hnz).
    left. exists p. eauto using resolveProxyPort_memoized.
  - right. rewrite resolveProxyPort_fresh by done.
    destruct (Env.getFreePort env _) as [e|p]; [right|left]; eauto.
Qed.

Lemma getApiTarget_unfold w st :
  getApiTarget env w st =
  match apiTarget (this st), w with
  | Some cached, false => (inr cached, st)
  | _, _ =>
      match resolveProxyPort env st with
      | (inl e, st1) => (inl e, st1)
      | (inr port, st1) =>
          let d := descriptor (clusterUrl (this st)) (if w then 14400000 else 30000) port in
          let r := length (World.targets (world st1)) in
          (inr r, mkState (if w then this st1 else set_apiTarget (Some r) (this st1))
                          (World.set_targets (World.targets (world st1) ++ [d]) (world st1)))
      end
  end.
Proof.
  unfold getApiTarget, newApiTarget, descriptor. unfold_m.
  destruct (apiTarget (this st)) as [c|], w; try done.
  all: destruct (resolveProxyPort env st) as [[e|p] st1]; done.
Qed.

Lemma ensureServer_unfold st :
  ensureServer env st =
  match proxyServer (this st) with
  | Some _ => (inr tt, st)
  | None =>
      match resolveProxyPort env st with
      | (inl e, st1) => (inl e, st1)
      | (inr port, st1) =>
          let proxyEnv :=
            match Cluster.preferences (cluster (this st)) ≫= ClusterPreferences.httpsProxy with
            | Some p => if truthy_string (Some p)
                        then <["HTTPS_PROXY"%string := p]> (Env.process_env env)
                        else Env.process_env env
            | None => Env.process_env env
            end in
          let r := length (World.proxies (world st1)) in
          (match Env.run_outcome env r with Some e => inl e | None => inr tt end,
           mkState (set_proxyServer (Some r) (this st1))
                   (World.set_proxies
                      (World.proxies (world st1)
                       ++ [KubeAuthProxy.run
                             (KubeAuthProxy.create (cluster (this st)) port proxyEnv)])
                      (world st1)))
      end
  end.
Proof.
  unfold ensureServer, run_proxy. unfold_m.
  destruct (proxyServer (this st)); [done|].
  destruct (resolveProxyPort env st) as [[e|p] st1]; [done|]. simpl.
  assert (Halter : ∀ x, alter KubeAuthProxy.run (length (World.proxies (world st1)))
                     (World.proxies (world st1) ++ [x])
                   = World.proxies (world st1) ++ [KubeAuthProxy.run x]).
  { intros x. rewrite alter_app_r_alt by lia. by rewrite Nat.sub_diag. }
  rewrite Halter. unfold World.set_proxies; simpl.
  by destruct (Env.run_outcome env _).
Qed.

Lemma getPrometheusService_post latency st r st' :
  getPrometheusService env latency st = (r, st') → st' = probed env st.
Proof.
  rewrite getPrometheusService_unfold. destruct (Promise_all _ _); congruence.
Qed.

Ltac unfold_exec :=
  unfold exec, init, stopServer, proxyServerError, getPrometheusPath,
    resolvePrometheusPath, getPrometheusProvider, setClusterPreferences;
  unfold_m; cbv beta;
  rewrite ?getApiTarget_unfold, ?ensureServer_unfold,
    ?getPrometheusService_this, ?getPrometheusService_world.

Ltac split_cases :=
  repeat case_match; simplify_eq/=;
  repeat match goal with
         | H : getPrometheusService _ _ _ = _ |- _ =>
             apply getPrometheusService_post in H; subst
         end;
  try done.

Ltac resolve_cases st :=
  let Hres := fresh "Hres" in
  try (destruct (resolveProxyPort_cases st)
         as [(? & ? & ? & Hres)|[(? & ? & ? & Hres)|(? & ? & ? & Hres)]];
       rewrite Hres in *; clear Hres).

(** A resolved port and the allocator's count survive every call. *)
Lemma exec_port op st p :
  proxyPort (this st) = Some p → p ≠ 0 →
  proxyPort (this (exec env op st)) = Some p ∧
  World.allocations (world (exec env op st)) = World.allocations (world st).
Proof.
  intros Hp Hnz. destruct op; unfold_exec;
    rewrite ?(resolveProxyPort_memoized st p) by done; simpl; split_cases.
Qed.

Lemma exec_clusterUrl op st :
  clusterUrl (this (exec env op st)) = clusterUrl (this st).
Proof. destruct op; unfold_exec; resolve_cases st; simpl; split_cases. Qed.

(** Only [getApiTarget] touches the cached target and the descriptors. *)
Lemma exec_targets op st :
  (∀ w, op ≠ GetApiTarget w) →
  apiTarget (this (exec env op st)) = apiTarget (this st) ∧
  World.targets (world (exec env op st)) = World.targets (world st).
Proof.
  intros Hop. destruct op; try (by destruct (Hop isWatchRequest)); unfold_exec;
    resolve_cases st; simpl; split_cases.
Qed.

(** Only [ensureServer] and [stopServer] touch the proxy objects. *)
Lemma exec_proxies op st :
  op ≠ EnsureServer → op ≠ StopServer →
  proxyServer (this (exec env op st)) = proxyServer (this st) ∧
  World.proxies (world (exec env op st)) = World.proxies (world st).
Proof.
  intros H1 H2. destruct op; try done; unfold_exec; resolve_cases st; simpl; split_cases.
Qed.

Lemma exec_all_snoc ops op st :
  exec_all env (ops ++ [op]) st = exec env op (exec_all env ops st).
Proof. unfold exec_all. by rewrite foldl_app. Qed.

Lemma exec_all_port ops st p :
  proxyPort (this st) = Some p → p ≠ 0 →
  proxyPort (this (exec_all env ops st)) = Some p ∧
  World.allocations (world (exec_all env ops st)) = World.allocations (world st).
Proof.
  intros Hp Hnz. induction ops as [|op ops IH] using rev_ind; [done|].
  rewrite exec_all_snoc. destruct IH as [IH1 IH2].
  destruct (exec_port op (exec_all env ops st) p IH1 Hnz) as [? ?]. split; congruence.
Qed.

(** *** Conditions that hold of every state *)

Lemma cache_ok_exec op st : cache_ok st → cache_ok (exec env op st).
Proof.
  intros Hc.
  assert (Hframe : (∀ w, op ≠ GetApiTarget w) → cache_ok (exec env op st)).
  { intros Hop r. destruct (exec_targets op st Hop) as [-> ->].
    rewrite exec_clusterUrl. apply Hc. }
  destruct op; try (by apply Hframe). clear Hframe.
  unfold exec. rewrite getApiTarget_unfold.
  destruct (apiTarget (this st)) as [c|] eqn:Hc0, isWatchRequest; simpl; try done.
  all: resolve_cases st; simpl; try done.
  all: intros r Hr; simpl in *.
  all: first [ destruct (Hc r) as [port Hport]; [congruence|];
               exists port; by apply lookup_app_l_Some
             | injection Hr as <-; eexists; by apply list_lookup_middle ].
Qed.

Lemma cache_port_ok_exec op st :
  ports_nonzero env → cache_ok st → cache_port_ok st → cache_port_ok (exec env op st).
Proof.
  intros Hnz Hc Hp.
  assert (Hframe : (∀ w, op ≠ GetApiTarget w) → cache_port_ok (exec env op st)).
  { intros Hop r d. destruct (exec_targets op st Hop) as [-> ->]. intros Hr Hd.
    destruct (Hp r d Hr Hd) as [Hport Hne]. split; [|done].
    by apply exec_port. }
  destruct op; try (by apply Hframe). clear Hframe.
  unfold exec. rewrite getApiTarget_unfold.
  destruct (apiTarget (this st)) as [c|] eqn:Hc0, isWatchRequest; simpl; try done.
  all: resolve_cases st; simpl; try done.
  all: intros r d Hr Hd; simpl in *.
  all: try congruence.
  all: first
    [ (* a cached target exists *)
      assert (r = c) as -> by congruence;
      destruct (Hc c Hc0) as [port Hport];
      rewrite (lookup_app_l_Some _ _ _ _ Hport) in Hd; injection Hd as <-;
      destruct (Hp c _ Hc0 Hport) as [Hpp Hne]; simpl in *;
      first [ done
            | match goal with
              | Hf : truthy_number _ = false |- _ =>
                  rewrite Hpp in Hf; simpl in Hf;
                  by destruct (Z.eqb_spec port 0)
              end ]
    | (* the target is built and cached by this call *)
      injection Hr as <-; rewrite list_lookup_middle in Hd by done;
      injection Hd as <-; simpl; split; [done|];
      first [ done | intros ->; by eapply Hnz ] ].
Qed.

Lemma one_process_exec op st : one_process st → one_process (exec env op st).
Proof.
  intros Hone.
  assert (Hframe : op ≠ EnsureServer → op ≠ StopServer → one_process (exec env op st)).
  { intros H1 H2 i x. destruct (exec_proxies op st H1 H2) as [-> ->]. apply Hone. }
  destruct op; try (by apply Hframe); clear Hframe; unfold exec.
  - (* ensureServer *)
    rewrite ensureServer_unfold.
    destruct (proxyServer (this st)) as [r|] eqn:Hr; [done|].
    resolve_cases st; simpl; try done.
    all: intros i px Hi Hlive; simpl in *.
    all: apply lookup_app_Some in Hi as [Hi|[Hlen Hi]];
      [ specialize (Hone i px Hi Hlive); congruence
      | apply list_lookup_singleton_Some in Hi as [Hi _]; f_equal; lia ].
  - (* stopServer *)
    unfold stopServer. unfold_m.
    destruct (proxyServer (this st)) as [r|] eqn:Hr; simpl; [|done].
    intros i x Hi Hlive. simpl in *. exfalso.
    destruct (decide (i = r)) as [->|Hne].
    + rewrite list_lookup_alter_eq in Hi.
      destruct (World.proxies (world st) !! r) as [y|]; [|done].
      injection Hi as <-. unfold KubeAuthProxy.live in Hlive. simpl in Hlive.
      by rewrite andb_false_r in Hlive.
    + rewrite list_lookup_alter_ne in Hi by done.
      specialize (Hone i x Hi Hlive). congruence.
Qed.

Lemma setClusterPreferences_frame p st :
  let st' := snd (setClusterPreferences p st) in
  apiTarget (this st') = apiTarget (this st) ∧
  proxyServer (this st') = proxyServer (this st) ∧
  proxyPort (this st') = proxyPort (this st) ∧
  world st' = world st.
Proof. simpl. unfold setClusterPreferences. unfold_m. split_cases. Qed.

Lemma constructor_fresh kc c w st :
  constructor env kc c w = inr st →
  apiTarget (this st) = None ∧ proxyServer (this st) = None ∧
  proxyPort (this st) = None ∧ world st = w.
Proof.
  unfold constructor. intros Hst.
  repeat case_match; simplify_eq.
  match goal with
  | H : setClusterPreferences ?p ?st0 = _ |- _ =>
      pose proof (setClusterPreferences_frame p st0) as Hf; rewrite H in Hf
  end.
  simpl in Hf. naive_solver.
Qed.

Lemma reachable_invariants st :
  reachable env st →
  cache_ok st ∧ one_process st ∧ (ports_nonzero env → cache_port_ok st).
Proof.
  induction 1 as [kc c w st Hw Hst|op st _ (Hc & Hone & Hp)].
  - apply constructor_fresh in Hst as (Ha & Hs & _ & Hwd).
    split_and!.
    + intros r. by rewrite Ha.
    + intros i x. by rewrite Hwd, Hw.
    + intros _ r d. by rewrite Ha.
  - split_and!; auto using cache_ok_exec, one_process_exec, cache_port_ok_exec.
Qed.

Lemma reachable_exec_all ops st : reachable env st → reachable env (exec_all env ops st).
Proof.
  intros Hst. induction ops as [|op ops IH] using rev_ind; [done|].
  rewrite exec_all_snoc. by constructor.
Qed.

(** Once cached, the target and its descriptor stay. *)
Lemma exec_cached op st r d :
  apiTarget (this st) = Some r → World.targets (world st) !! r = Some d →
  apiTarget (this (exec env op st)) = Some r ∧
  World.targets (world (exec env op st)) !! r = Some d.
Proof.
  intros Hr Hd.
  assert (Hframe : (∀ w, op ≠ GetApiTarget w) →
                   apiTarget (this (exec env op st)) = Some r ∧
                   World.targets (world (exec env op st)) !! r = Some d).
  { intros Hop. by destruct (exec_targets op st Hop) as [-> ->]. }
  destruct op; try (by apply Hframe). clear Hframe.
  unfold exec. rewrite getApiTarget_unfold, Hr.
  destruct isWatchRequest; [|done].
  resolve_cases st; simpl; try done.
  all: split; [done|by apply lookup_app_l_Some].
Qed.

Lemma exec_all_cached ops st r d :
  apiTarget (this st) = Some r → World.targets (world st) !! r = Some d →
  apiTarget (this (exec_all env ops st)) = Some r ∧
  World.targets (world (exec_all env ops st)) !! r = Some d.
Proof.
  intros Hr Hd. induction ops as [|op ops IH] using rev_ind; [done|].
  rewrite exec_all_snoc. destruct IH as [IH1 IH2]. by apply exec_cached.
Qed.

(** While the handler holds a proxy object, no call but [stopServer]
    changes the proxy objects. *)
Lemma exec_held op st :
  is_Some (proxyServer (this st)) → op ≠ StopServer →
  proxyServer (this (exec env op st)) = proxyServer (this st) ∧
  World.proxies (world (exec env op st)) = World.proxies (world st).
Proof.
  intros [r Hr] Hop.
  assert (Hframe : op ≠ EnsureServer →
                   proxyServer (this (exec env op st)) = proxyServer (this st) ∧
                   World.proxies (world (exec env op st)) = World.proxies (world st)).
  { intros H1. by apply exec_proxies. }
  destruct op; try (by apply Hframe); try done.
  unfold exec. by rewrite ensureServer_unfold, Hr.
Qed.

Lemma exec_all_held ops st :
  is_Some (proxyServer (this st)) → StopServer ∉ ops →
  proxyServer (this (exec_all env ops st)) = proxyServer (this st) ∧
  World.proxies (world (exec_all env ops st)) = World.proxies (world st).
Proof.
  intros Hs Hops. induction ops as [|op ops IH] using rev_ind; [done|].
  rewrite exec_all_snoc.
  destruct IH as [IH1 IH2]; [set_solver|].
  destruct (exec_held op (exec_all env ops st)) as [? ?].
  - by rewrite IH1.
  - intros ->. set_solver.
  - split; congruence.
Qed.

(** *** The API target *)

Lemma getApiTarget_unfold_watch st :
  getApiTarget env true st =
  match resolveProxyPort env st with
  | (inl e, st1) => (inl e, st1)
  | (inr port, st1) =>
      (inr (length (World.targets (world st1))),
       mkState (this st1)
               (World.set_targets
                  (World.targets (world st1)
                   ++ [descriptor (clusterUrl (this st)) 14400000 port])
                  (world st1)))
  end.
Proof. rewrite getApiTarget_unfold. by destruct (apiTarget (this st)). Qed.

Lemma getApiTarget_watch st r st1 :
  getApiTarget env true st = (inr r, st1) →
  r = length (World.targets (world st)) ∧
  apiTarget (this st1) = apiTarget (this st) ∧
  ∃ port, World.targets (world st1) =
          World.targets (world st) ++ [descriptor (clusterUrl (this st)) 14400000 port].
Proof.
  rewrite getApiTarget_unfold_watch. intros Hget.
  resolve_cases st; simpl in Hget; simplify_eq; simpl; split_and!; eauto.
Qed.

(** C5. In every state of a handler: a non-watch call returns a descriptor
    with a timeout of 30000 ms and leaves it cached, and every later
    non-watch call, whatever was called in between, returns that same
    object and changes nothing; a watch call returns a new object with a
    timeout of 14400000 ms (4 hours), which is neither the cached one nor
    the one of the next watch call, and leaves the cache as it was.  The
    call returns whenever the port is resolved or the allocator answers. *)
Theorem getApiTarget_caching st :
  reachable env st →
  (∀ r st1,
      getApiTarget env false st = (inr r, st1) →
      (∃ d, World.targets (world st1) !! r = Some d ∧ ServerOptions.timeout d = 30000) ∧
      apiTarget (this st1) = Some r ∧
      ∀ ops, getApiTarget env false (exec_all env ops st1) = (inr r, exec_all env ops st1) ∧
             World.targets (world (exec_all env ops st1)) !! r
             = World.targets (world st1) !! r) ∧
  (∀ r st1,
      getApiTarget env true st = (inr r, st1) →
      r = length (World.targets (world st)) ∧
      apiTarget (this st) ≠ Some r ∧
      apiTarget (this st1) = apiTarget (this st) ∧
      (∃ d, World.targets (world st1) = World.targets (world st) ++ [d] ∧
            ServerOptions.timeout d = 14400000) ∧
      ∀ r' st2, getApiTarget env true st1 = (inr r', st2) → r' ≠ r) ∧
  (truthy_number (proxyPort (this st)) = true ∨
   (∃ p, Env.getFreePort env (World.allocations (world st)) = inr p) →
   ∀ w, ∃ r st1, getApiTarget env w st = (inr r, st1)).
Proof.
  intros Hreach. destruct (reachable_invariants st Hreach) as (Hc & _ & _).
  split_and!.
  - intros r st1 Hget.
    assert (∃ d, World.targets (world st1) !! r = Some d ∧
                 ServerOptions.timeout d = 30000 ∧ apiTarget (this st1) = Some r)
      as (d & Hd & Ht & Hr).
    { rewrite getApiTarget_unfold in Hget.
      destruct (apiTarget (this st)) as [c|] eqn:Ha.
      - injection Hget as <- <-. destruct (Hc c Ha) as [port Hport]. eauto.
      - resolve_cases st; simpl in Hget; simplify_eq; simpl;
          eexists; split_and!; first [by apply list_lookup_middle|done]. }
    split_and!; [eauto|done|].
    intros ops. destruct (exec_all_cached ops st1 r d Hr Hd) as [Hr2 Hd2]. split.
    + by rewrite getApiTarget_unfold, Hr2.
    + congruence.
  - intros r st1 Hget.
    destruct (getApiTarget_watch _ _ _ Hget) as (-> & Ha & port & Htargets).
    split_and!; [done| |done|by eauto|].
    + intros Hcached. destruct (Hc _ Hcached) as [? Hlookup].
      apply lookup_lt_Some in Hlookup. lia.
    + intros r' st2 Hget'.
      destruct (getApiTarget_watch _ _ _ Hget') as (-> & _).
      rewrite Htargets, length_app. simpl. lia.
  - intros Hport w. rewrite getApiTarget_unfold.
    destruct (apiTarget (this st)) as [c|], w; eauto.
    all: destruct Hport as [Ht|[p Hp]]; resolve_cases st; eauto; congruence.
Qed.

(** C8 (as the code has it). In every state that a handler built by the
    constructor reaches through calls awaited one after the other, a
    descriptor that [getApiTarget] returns is [{changeOrigin: true, timeout,
    headers: {Host: hostname of the cluster URL}, target: {port, protocol:
    "http://", host: "localhost", path: path of the cluster URL}}], the
    timeout being 14400000 for a watch request and 30000 otherwise.  The
    port is the handler's resolved proxy port when the descriptor is built
    by the call, and for a cached descriptor too when the allocator never
    hands out port 0. *)
Theorem getApiTarget_shape st w r st1 :
  reachable env st →
  getApiTarget env w st = (inr r, st1) →
  ∃ port,
    World.targets (world st1) !! r =
      Some {| ServerOptions.changeOrigin := true;
              ServerOptions.timeout := if w then 14400000 else 30000;
              ServerOptions.headers :=
                {[ "Host"%string := Url.hostname (clusterUrl (this st1)) ]};
              ServerOptions.target :=
                {| ProxyTarget.port := port;
                   ProxyTarget.protocol := "http://";
                   ProxyTarget.host := "localhost";
                   ProxyTarget.path := Url.path (clusterUrl (this st1)) |} |} ∧
    (w = true ∨ apiTarget (this st) = None → proxyPort (this st1) = Some port) ∧
    (ports_nonzero env → proxyPort (this st1) = Some port).
Proof.
  intros Hreach Hget.
  destruct (reachable_invariants st Hreach) as (Hc & _ & Hp).
  rewrite getApiTarget_unfold in Hget.
  destruct (apiTarget (this st)) as [c|] eqn:Ha, w.
  2: { injection Hget as <- <-. destruct (Hc c Ha) as [port Hport].
       exists port. split_and!; [done| |].
       - by intros [?|?].
       - intros Hnz. by destruct (Hp Hnz c _ Ha Hport) as [Hpp _]. }
  all: resolve_cases st; simpl in Hget; simplify_eq; simpl;
    eexists; (split_and!; [by apply list_lookup_middle|done|done]).
Qed.

(** *** One port, one process *)

(** C6 (as the code has it). With an allocator that never hands out port 0
    and calls made one after the other, each awaited before the next: once
    [resolveProxyPort] has returned a port, after any
    sequence of calls it returns that port again, changes nothing and does
    not invoke the allocator; in every state of a handler at most one proxy
    object has a running process; and when [ensureServer] has left the
    handler with a proxy object, every later [ensureServer] with no
    [stopServer] in between returns at once and no proxy object is
    constructed, the first call having constructed and run exactly one when
    the handler held none. *)
Theorem one_port_one_process :
  ports_nonzero env →
  (∀ st p st1 ops,
      resolveProxyPort env st = (inr p, st1) →
      resolveProxyPort env (exec_all env ops st1) = (inr p, exec_all env ops st1) ∧
      proxyPort (this (exec_all env ops st1)) = Some p ∧
      World.allocations (world (exec_all env ops st1)) = World.allocations (world st1)) ∧
  (∀ st, reachable env st →
         ∀ i j x y,
           World.proxies (world st) !! i = Some x → World.proxies (world st) !! j = Some y →
           KubeAuthProxy.live x = true → KubeAuthProxy.live y = true → i = j) ∧
  (∀ st,
      (fst (ensureServer env st) = inr tt →
       is_Some (proxyServer (this (snd (ensureServer env st))))) ∧
      (proxyServer (this st) = None → fst (ensureServer env st) = inr tt →
       ∃ x, World.proxies (world (snd (ensureServer env st))) = World.proxies (world st) ++ [x] ∧
            KubeAuthProxy.started x = true) ∧
      (is_Some (proxyServer (this (snd (ensureServer env st)))) →
       ∀ ops, StopServer ∉ ops →
              let st2 := exec_all env ops (snd (ensureServer env st)) in
              ensureServer env st2 = (inr tt, st2) ∧
              World.proxies (world st2) = World.proxies (world (snd (ensureServer env st))))).
Proof.
  intros Hnz. split_and!.
  - intros st p st1 ops Hres.
    assert (proxyPort (this st1) = Some p ∧ p ≠ 0) as [Hp Hp0].
    { resolve_cases st; simplify_eq; simpl; split; try done.
      intros ->. by eapply Hnz. }
    destruct (exec_all_port ops st1 p Hp Hp0) as [Hp2 Hal].
    split_and!; [by apply resolveProxyPort_memoized|done|done].
  - intros st Hreach i j x y Hi Hj Hx Hy.
    destruct (reachable_invariants st Hreach) as (_ & Hone & _).
    pose proof (Hone i x Hi Hx). pose proof (Hone j y Hj Hy). congruence.
  - intros st. split_and!.
    + rewrite ensureServer_unfold.
      destruct (proxyServer (this st)) eqn:Hs; [simpl; by rewrite Hs|].
      resolve_cases st; simpl; try done.
    + intros Hs. rewrite ensureServer_unfold, Hs.
      resolve_cases st; simpl; try done.
      all: intros _; eexists; split; [reflexivity|done].
    + intros Hs ops Hops st2.
      destruct (exec_all_held ops _ Hs Hops) as [Hs2 Hpx]. subst st2. split; [|done].
      rewrite ensureServer_unfold. rewrite Hs2.
      by destruct Hs as [r ->].
Qed.

(** *** Telemetry: pinning *)

(** C4 (as the code has it). With no provider pinned,
    [getPrometheusService] probes the whole provider list and leaves the
    handler object as it was, so that the next call probes the whole list
    again; it is [getPrometheusProvider] that pins: when the service
    resolution it runs returns a service, the handler's provider is the id
    of that service, and a provider id other than the empty string restricts
    the candidates of every later resolution to the providers of that id. *)
Theorem pinned_by_getPrometheusProvider latency st :
  truthy_string (prometheusProvider (this st)) = false →
  (this (snd (getPrometheusService env latency st)) = this st ∧
   World.probes (world (snd (getPrometheusService env latency st))) =
     World.probes (world st) ++ (PrometheusProvider.id <$> Env.prometheusProviders env) ∧
   candidates env (this (snd (getPrometheusService env latency st)))
     = Env.prometheusProviders env) ∧
  (∀ service st1,
      getPrometheusService env latency st = (inr service, st1) →
      ∃ found st2,
        getPrometheusProvider env latency st = (inr found, st2) ∧
        prometheusProvider (this st2) = Some (PrometheusService.id service) ∧
        (PrometheusService.id service ≠ EmptyString →
         candidates env (this st2) =
           filter (λ p, Some (PrometheusProvider.id p) = Some (PrometheusService.id service))
                  (Env.prometheusProviders env))).
Proof.
  intros Hun. split.
  - rewrite getPrometheusService_this, getPrometheusService_world.
    unfold probed; simpl. by rewrite !candidates_unpinned.
  - intros service st1 Hget.
    unfold getPrometheusProvider. unfold_m. rewrite Hun, Hget. simpl.
    do 2 eexists. split_and!; [done..|].
    intros Hid. unfold candidates; simpl.
    destruct (String.eqb_spec (PrometheusService.id service) EmptyString); done.
Qed.

(** *** Preferences *)

(** C10. [setClusterPreferences] called without a preferences object
    throws a [TypeError] at its first statement and writes nothing; so does
    the constructor for a cluster whose [preferences] are absent (with that
    very error when the kubeconfig has the context and its cluster); with a
    preferences object the method returns. *)
Theorem setClusterPreferences_undefined :
  (∀ st, setClusterPreferences None st =
         (inl (TypeError "Cannot read property 'prometheusProvider' of undefined"), st)) ∧
  (∀ kc c w, Cluster.preferences c = None →
             ∃ msg, constructor env kc c w = inl (TypeError msg)) ∧
  (∀ kc c w,
      Cluster.preferences c = None →
      is_Some (KubeConfig.getCurrentCluster
                 (KubeConfig.setCurrentContext (Cluster.contextName c) kc)) →
      constructor env kc c w =
        inl (TypeError "Cannot read property 'prometheusProvider' of undefined")) ∧
  (∀ p st, fst (setClusterPreferences (Some p) st) = inr tt).
Proof.
  split_and!.
  - done.
  - intros kc c w Hp. unfold constructor. rewrite Hp.
    destruct (KubeConfig.getCurrentCluster _); [|by eauto].
    destruct (KubeConfig.getContextObject _ _); by eauto.
  - intros kc c w Hp [current Hc]. unfold constructor. rewrite Hp, Hc.
    unfold KubeConfig.getCurrentCluster in Hc.
    by destruct (KubeConfig.getContextObject _ _).
  - intros p st. unfold setClusterPreferences. unfold_m. split_cases.
Qed.

End Calls.

(** *** Overlapping port resolutions *)

Section Overlap.
Variable env : Env.t.

Lemma resolveProxyPort_call_fresh st :
  truthy_number (proxyPort (this st)) = false →
  resolveProxyPort_call st =
    (inr (inr (World.allocations (world st))),
     mkState (this st)
             (World.set_allocations (S (World.allocations (world st))) (world st))).
Proof. intros Hf. unfold resolveProxyPort_call. unfold_m. by rewrite Hf. Qed.

Lemma resolveProxyPort_call_memoized st p :
  proxyPort (this st) = Some p → p ≠ 0 → resolveProxyPort_call st = (inr (inl p), st).
Proof.
  intros Hp Hnz. unfold resolveProxyPort_call. unfold_m. rewrite Hp. simpl.
  by destruct (Z.eqb_spec p 0).
Qed.

Lemma resolveProxyPort_settle_result outcome st :
  fst (resolveProxyPort_settle outcome st) = outcome ∧
  World.allocations (world (snd (resolveProxyPort_settle outcome st)))
    = World.allocations (world st) ∧
  ∀ p, outcome = inr p → proxyPort (this (snd (resolveProxyPort_settle outcome st))) = Some p.
Proof.
  unfold resolveProxyPort_settle. unfold_m.
  destruct outcome as [e|p]; simpl; repeat split; congruence.
Qed.

(** The sequential method is a call followed at once by its settlement. *)
Lemma resolveProxyPort_sequential st :
  resolveProxyPort env st =
  match resolveProxyPort_call st with
  | (inr (inl port), st1) => (inr port, st1)
  | (inr (inr n), st1) => resolveProxyPort_settle (Env.getFreePort env n) st1
  | (inl e, st1) => (inl e, st1)
  end.
Proof.
  unfold resolveProxyPort. unfold_m.
  by destruct (resolveProxyPort_call st) as [[e|[p|n]] st1].
Qed.

(** After [k] calls made while no port is stored: [k] invocations of the
    allocator, call [c] waiting for invocation number [c], none finished. *)
Lemma run_calls st k :
  truthy_number (proxyPort (this st)) = false →
  let r := run env (Call <$> seq 0 k) st in
  this (state r) = this st ∧
  World.allocations (world (state r)) = (World.allocations (world st) + k)%nat ∧
  (∀ c, waiting r !! c
        = if decide (c < k)%nat then Some (World.allocations (world st) + c)%nat else None) ∧
  returned r = ∅.
Proof.
  intros Hf. induction k as [|k IH]; intros r; subst r.
  - split_and!; [done|unfold run; simpl; lia| |done].
    intros c. case_decide; [lia|apply lookup_empty].
  - rewrite seq_S, fmap_app. unfold run in *. rewrite foldl_app.
    destruct IH as (Hthis & Halloc & Hwait & Hret).
    set (r1 := foldl (step env) _ (Call <$> seq 0 k)) in *.
    cbn [foldl fmap list_fmap step plus].
    rewrite resolveProxyPort_call_fresh by (by rewrite Hthis).
    simpl. split_and!; [done|lia| |done].
    intros c. destruct (decide (c = k)) as [->|Hne].
    + rewrite lookup_insert_eq. case_decide; [|lia]. f_equal. lia.
    + rewrite lookup_insert_ne by done. rewrite Hwait.
      repeat case_decide; try done; lia.
Qed.

(** The settlements that follow, in any order. *)
Lemma run_settles r0 a k settles :
  World.allocations (world (state r0)) = (a + k)%nat →
  (∀ c, waiting r0 !! c = if decide (c < k)%nat then Some (a + c)%nat else None) →
  returned r0 = ∅ →
  (∀ c, c ∈ settles → (c < k)%nat) →
  let r := foldl (step env) r0 (Settle <$> settles) in
  World.allocations (world (state r)) = (a + k)%nat ∧
  (∀ c, waiting r !! c
        = if decide ((c < k)%nat ∧ c ∉ settles) then Some (a + c)%nat else None) ∧
  (∀ c, returned r !! c
        = if decide (c ∈ settles) then Some (Env.getFreePort env (a + c)%nat) else None) ∧
  (∀ done c p, settles = done ++ [c] → c ∉ done →
               Env.getFreePort env (a + c)%nat = inr p →
               proxyPort (this (state r)) = Some p).
Proof.
  intros Halloc Hwait Hret.
  induction settles as [|c settles IH] using rev_ind; intros Hlt r; subst r.
  - cbn [foldl fmap list_fmap]. split_and!; [done| | |].
    + intros c. rewrite Hwait. repeat case_decide; try done; set_solver.
    + intros c. rewrite Hret, lookup_empty. case_decide; [set_solver|done].
    + intros done c p Heq. by destruct done.
  - rewrite fmap_app, foldl_app.
    destruct IH as (IHa & IHw & IHr & _); [set_solver|].
    set (r1 := foldl (step env) r0 (Settle <$> settles)) in *.
    cbn [foldl fmap list_fmap step].
    assert (Hc : (c < k)%nat) by set_solver.
    rewrite IHw.
    destruct (resolveProxyPort_settle_result (Env.getFreePort env (a + c)%nat) (state r1))
      as (Hres & Hal & Hport).
    case_decide as Hdec.
    + destruct (resolveProxyPort_settle _ (state r1)) as [result st'] eqn:Hs.
      simpl in *. subst result. split_and!.
      * congruence.
      * intros c'. destruct (decide (c' = c)) as [->|Hne].
        -- rewrite lookup_delete_eq. case_decide; [set_solver|done].
        -- rewrite lookup_delete_ne by done. rewrite IHw.
           repeat case_decide; try done; set_solver.
      * intros c'. destruct (decide (c' = c)) as [->|Hne].
        -- rewrite lookup_insert_eq. case_decide; [done|set_solver].
        -- rewrite lookup_insert_ne by done. rewrite IHr.
           repeat case_decide; try done; set_solver.
      * intros done c' p Heq Hnot Hp.
        apply app_inj_tail in Heq as [-> ->]. by apply Hport.
    + split_and!.
      * done.
      * intros c'. rewrite IHw. repeat case_decide; try done; set_solver.
      * intros c'. rewrite IHr.
        assert (c ∈ settles) by (apply dec_stable; set_solver).
        repeat case_decide; try done; set_solver.
      * intros done c' p Heq Hnot Hp.
        apply app_inj_tail in Heq as [-> ->]. exfalso. apply Hdec. done.
Qed.

(** C1 (as the code has it). When [k] calls of [resolveProxyPort()] are
    made while no port is stored and settle afterwards, in any order, the
    allocator is invoked [k] times, once for each call; each call ends with
    the outcome of its own invocation, a port or an error; and the handler
    keeps the port of the call that settles last.  Only a call made when a
    port is stored returns that port without invoking the allocator. *)
Theorem overlapping_resolutions st k settles :
  truthy_number (proxyPort (this st)) = false →
  settles ≡ₚ seq 0 k →
  let r := run env ((Call <$> seq 0 k) ++ (Settle <$> settles)) st in
  World.allocations (world (state r)) = (World.allocations (world st) + k)%nat ∧
  (∀ c, (c < k)%nat →
        returned r !! c = Some (Env.getFreePort env (World.allocations (world st) + c)%nat)) ∧
  (∀ c, waiting r !! c = None) ∧
  (∀ c p, last settles = Some c →
          Env.getFreePort env (World.allocations (world st) + c)%nat = inr p →
          proxyPort (this (state r)) = Some p) ∧
  (∀ c p, proxyPort (this (state r)) = Some p → p ≠ 0 →
          step env r (Call c) = mkRun (state r) (waiting r) (<[c := inr p]> (returned r))).
Proof.
  intros Hf Hperm r. subst r. unfold run. rewrite foldl_app.
  destruct (run_calls st k Hf) as (_ & Halloc & Hwait & Hret). unfold run in *.
  set (r0 := foldl (step env) _ (Call <$> seq 0 k)) in *.
  assert (Hin : ∀ c, c ∈ settles ↔ (c < k)%nat).
  { intros c. rewrite Hperm, elem_of_seq. lia. }
  destruct (run_settles r0 _ k settles Halloc Hwait Hret) as (Ha & Hw & Hr & Hlast).
  { intros c. apply Hin. }
  split_and!.
  - done.
  - intros c Hc. rewrite Hr. case_decide as Hd; [done|]. by apply Hin in Hc.
  - intros c. rewrite Hw. case_decide as Hd; [|done].
    destruct Hd as [Hc Hnot]. by apply Hin in Hc.
  - intros c p Hl Hp. apply last_Some in Hl as [done Hl].
    apply (Hlast done c p Hl); [|done].
    assert (Hnd : NoDup settles) by (rewrite Hperm; apply NoDup_seq).
    rewrite Hl in Hnd. apply NoDup_app in Hnd as (_ & Hdis & _).
    intros Hc. apply (Hdis c Hc). set_solver.
  - intros c p Hp Hnz. simpl. by rewrite (resolveProxyPort_call_memoized _ p).
Qed.

End Overlap.
End ContextHandlerFacts.


(** ** The properties on the concrete inputs *)

Module Examples.
Import ContextHandler ContextHandlerFacts.

Lemma initial_constructed providers :
  constructor (Sample.env_with providers) Sample.kubeconfig
              (Sample.cluster_with (Some Sample.no_preferences)) Sample.fresh_world
  = inr Sample.initial.
Proof. reflexivity. Qed.

Lemma initial_reachable providers : reachable (Sample.env_with providers) Sample.initial.
Proof. by eapply reachable_new, initial_constructed. Qed.

Lemma sample_ports_nonzero providers : ports_nonzero (Sample.env_with providers).
Proof. intros n [= Hn]. lia. Qed.

(** Two overlapping calls: two allocations, ports 49152 and 49153. *)
Lemma overlapping_resolutions_witness :
  truthy_number (proxyPort (this Sample.initial)) = false ∧
  [1; 0]%nat ≡ₚ seq 0 2 ∧
  let r := run Sample.env [Call 0; Call 1; Settle 1; Settle 0]%nat Sample.initial in
  World.allocations (world (state r)) = 2%nat ∧
  returned r !! 0%nat = Some (inr 49152) ∧
  returned r !! 1%nat = Some (inr 49153).
Proof.
  split; [reflexivity|]. split; [apply Permutation_swap|].
  destruct (overlapping_resolutions Sample.env Sample.initial 2 [1; 0]%nat)
    as (Ha & Hr & _); [reflexivity|apply Permutation_swap|].
  split; [exact Ha|]. split; [apply (Hr 0%nat); lia|apply (Hr 1%nat); lia].
Defined.

Lemma single_flight_fails :
  ¬ Specified.single_flight Sample.env [Call 0; Call 1; Settle 0; Settle 1]%nat
      Sample.initial.
Proof. intros [Halloc _]. vm_compute in Halloc. discriminate. Qed.

(** Call 0 has returned 49152 when call 1, made before, settles and stores
    49153, which call 2 then returns. *)
Lemma port_never_changes_fails :
  ¬ Specified.port_never_changes Sample.env
      [Call 0; Call 1; Settle 0; Settle 1; Call 2]%nat Sample.initial.
Proof.
  intros Hstable.
  assert (Hsame : @inr Error Z 49153 = inr 49152); [|discriminate].
  apply (Hstable [Call 0; Call 1; Settle 0]%nat [Settle 1; Call 2]%nat 0%nat 49152 2%nat).
  - reflexivity.
  - vm_compute. reflexivity.
  - set_solver.
  - vm_compute. reflexivity.
Qed.

(** The probe of [A] is rejected: so is the call, although [B] matches. *)
Lemma getPrometheusService_rejects_witness :
  candidates Sample.env_failing (this Sample.initial) !! 0%nat
    = Some (Sample.provider "A" (inl (Failure "connect ECONNREFUSED"))) ∧
  fst (getPrometheusService Sample.env_failing (λ _, 0%nat) Sample.initial)
    = inl (Failure "connect ECONNREFUSED").
Proof.
  split; [reflexivity|].
  destruct (getPrometheusService_rejects Sample.env_failing (λ _, 0%nat) Sample.initial 0
              (Sample.provider "A" (inl (Failure "connect ECONNREFUSED")))
              (Failure "connect ECONNREFUSED"))
    as (k & q & e' & _ & _ & _ & Hget & _); [reflexivity|reflexivity|].
  reflexivity.
Defined.

Lemma probe_errors_contained_fails :
  ¬ Specified.probe_errors_contained Sample.env_failing (λ _, 0%nat) Sample.initial.
Proof. unfold Specified.probe_errors_contained. vm_compute. discriminate. Qed.

(** [A] finds nothing and [B] matches, but the probe of [C] is rejected:
    the call is rejected and [B]'s service is not returned. *)
Lemma first_match_selected_fails :
  ¬ Specified.first_match_selected Sample.env_rejected_last (λ _, 0%nat) Sample.initial.
Proof.
  intros Hselected.
  specialize (Hselected eq_refl 1%nat
                (Sample.provider "B" (inr (Some (Sample.service "B"))))
                (Sample.service "B") eq_refl eq_refl).
  assert (Hrejected :
    fst (getPrometheusService Sample.env_rejected_last (λ _, 0%nat) Sample.initial)
    = inl (Failure "connect ETIMEDOUT")) by reflexivity.
  rewrite Hrejected in Hselected.
  assert (Hequal : @inl Error PrometheusService.t (Failure "connect ETIMEDOUT")
                   = inr (Sample.service "B")); [|discriminate].
  apply Hselected. intros [|j] q Hj Hq; [|lia]. simpl in Hq. by simplify_eq.
Qed.

(** [A] finds nothing, [B] and [C] match, [C] settles first: [B] is chosen. *)
Lemma getPrometheusService_first_in_order_witness :
  truthy_string (prometheusProvider (this Sample.initial)) = false ∧
  fst (getPrometheusService Sample.env (λ i, 2 - i)%nat Sample.initial)
    = inr (Sample.service "B").
Proof.
  split; [reflexivity|].
  apply (getPrometheusService_first_in_order Sample.env (λ i, 2 - i)%nat Sample.initial 1
           (Sample.provider "B" (inr (Some (Sample.service "B")))) (Sample.service "B")).
  - reflexivity.
  - intros [|[|[|j]]] q e Hq; simpl in Hq; simplify_eq; done.
  - reflexivity.
  - reflexivity.
  - intros [|j] q Hj Hq; [|lia]. simpl in Hq. by simplify_eq.
Defined.

(** After [getPrometheusService] found [B] nothing is pinned; after
    [getPrometheusProvider] it is. *)
Lemma pinned_by_getPrometheusProvider_witness :
  truthy_string (prometheusProvider (this Sample.initial)) = false ∧
  prometheusProvider (this (snd (getPrometheusService Sample.env (λ _, 0%nat) Sample.initial)))
    = None ∧
  prometheusProvider (this (snd (getPrometheusProvider Sample.env (λ _, 0%nat) Sample.initial)))
    = Some "B"%string.
Proof.
  split; [reflexivity|].
  destruct (pinned_by_getPrometheusProvider Sample.env (λ _, 0%nat) Sample.initial)
    as ((Hthis & _) & Hpin); [reflexivity|].
  split; [by rewrite Hthis|].
  destruct (Hpin (Sample.service "B")
                 (snd (getPrometheusService Sample.env (λ _, 0%nat) Sample.initial)))
    as (found & st2 & Hget & Hp & _); [reflexivity|].
  by rewrite Hget.
Defined.

Lemma pinned_by_resolution_fails :
  ¬ Specified.pinned_by_resolution Sample.env (λ _, 0%nat) Sample.initial.
Proof.
  intros Hpin.
  destruct (Hpin (Sample.service "B")
                 (snd (getPrometheusService Sample.env (λ _, 0%nat) Sample.initial)))
    as [Hp _]; [reflexivity| |].
  - unfold Specified.recovered. vm_compute. set_solver.
  - vm_compute in Hp. discriminate.
Qed.

(** The first non-watch call builds descriptor 0 and caches it; the second
    returns it again. *)
Lemma getApiTarget_caching_witness :
  reachable Sample.env Sample.initial ∧
  let st1 := snd (getApiTarget Sample.env false Sample.initial) in
  fst (getApiTarget Sample.env false Sample.initial) = inr 0%nat ∧
  apiTarget (this st1) = Some 0%nat ∧
  getApiTarget Sample.env false st1 = (inr 0%nat, st1).
Proof.
  split; [apply initial_reachable|].
  destruct (getApiTarget_caching Sample.env Sample.initial (initial_reachable _))
    as (Hcache & _ & _).
  destruct (Hcache 0%nat (snd (getApiTarget Sample.env false Sample.initial)))
    as (_ & Hcached & Hagain); [reflexivity|].
  split; [reflexivity|]. split; [exact Hcached|]. exact (proj1 (Hagain [])).
Defined.

(** Two [ensureServer] calls, with other calls in between, construct one
    proxy object. *)
Lemma one_port_one_process_witness :
  ports_nonzero Sample.env ∧
  let st1 := snd (ensureServer Sample.env Sample.initial) in
  let st2 := exec_all Sample.env [GetApiTarget false; EnsureServer] st1 in
  ensureServer Sample.env st2 = (inr tt, st2) ∧
  World.proxies (world st2) = World.proxies (world st1).
Proof.
  split; [apply sample_ports_nonzero|].
  destruct (one_port_one_process Sample.env (sample_ports_nonzero _)) as (_ & _ & Hserver).
  destruct (Hserver Sample.initial) as (Hheld & _ & Hsecond).
  apply (Hsecond (Hheld eq_refl) [GetApiTarget false; EnsureServer]).
  intros Hin. apply elem_of_cons in Hin as [Hin|Hin]; [discriminate|].
  apply elem_of_cons in Hin as [Hin|Hin]; [discriminate|].
  by apply elem_of_nil in Hin.
Defined.

(** No provider matches: the service ["lens"] is returned. *)
Lemma getPrometheusService_default_witness :
  (∀ j p, candidates Sample.env_silent (this Sample.initial) !! j = Some p →
          PrometheusProvider.getPrometheusService p j = inr None) ∧
  fst (getPrometheusService Sample.env_silent (λ _, 0%nat) Sample.initial)
    = inr default_service.
Proof.
  assert (Hnone : ∀ j p, candidates Sample.env_silent (this Sample.initial) !! j = Some p →
                         PrometheusProvider.getPrometheusService p j = inr None).
  { intros [|[|j]] p Hp; simpl in Hp; simplify_eq; done. }
  split; [exact Hnone|].
  apply (getPrometheusService_default Sample.env_silent (λ _, 0%nat) Sample.initial).
  intros j p Hp. apply (Hnone j p Hp).
Defined.

Lemma fallback_fails :
  fst (getPrometheusService Sample.env_silent (λ _, 0%nat) Sample.initial)
  ≠ inr Specified.fallback.
Proof. vm_compute. discriminate. Qed.

(** The descriptor of the first call: protocol ["http://"], [Host] the host
    name without the port. *)
Lemma getApiTarget_shape_witness :
  reachable Sample.env Sample.initial ∧
  ∃ st1 port,
    getApiTarget Sample.env false Sample.initial = (inr 0%nat, st1) ∧
    proxyPort (this st1) = Some port ∧
    World.targets (world st1) !! 0%nat =
      Some {| ServerOptions.changeOrigin := true;
              ServerOptions.timeout := 30000;
              ServerOptions.headers := {[ "Host"%string := Some "k8s.example.com"%string ]};
              ServerOptions.target :=
                {| ProxyTarget.port := port;
                   ProxyTarget.protocol := "http://";
                   ProxyTarget.host := "localhost";
                   ProxyTarget.path := Some "/"%string |} |}.
Proof.
  split; [apply initial_reachable|].
  exists (snd (getApiTarget Sample.env false Sample.initial)).
  destruct (getApiTarget_shape Sample.env Sample.initial false 0%nat
              (snd (getApiTarget Sample.env false Sample.initial))
              (initial_reachable _) eq_refl)
    as (port & Hd & _ & Hport).
  exists port. split; [reflexivity|].
  split; [exact (Hport (sample_ports_nonzero _))|exact Hd].
Defined.

Lemma target_shape_fails :
  ∃ r st1 d,
    getApiTarget Sample.env false Sample.initial = (inr r, st1) ∧
    World.targets (world st1) !! r = Some d ∧
    ¬ Specified.target_shape (this st1) d.
Proof.
  exists 0%nat, (snd (getApiTarget Sample.env false Sample.initial)),
    (descriptor Sample.parsed 30000 49152).
  split_and!; [reflexivity|reflexivity|].
  intros (_ & _ & _ & Hprotocol & _). simpl in Hprotocol. discriminate.
Qed.

(** A record stored into the empty store is read back with its persisted
    members. *)
Lemma storeCluster_roundtrip_witness :
  ∃ stored,
    ClusterStore.lookupCluster "c1"
      (ClusterStore.storeCluster Sample.record (ClusterStore.mk ∅)) = Some stored ∧
    ClusterBaseInfo.kubeConfigPath stored = "/home/u/.kube/config"%string ∧
    ClusterBaseInfo.contextName stored = "minikube"%string ∧
    ClusterBaseInfo.preferences stored = Some Sample.no_preferences ∧
    ClusterBaseInfo.workspace stored = Some "default"%string.
Proof.
  destruct (ClusterStoreFacts.storeCluster_roundtrip (ClusterStore.mk ∅) Sample.record)
    as (stored & Hlookup & _ & _ & Hpath & Hname & Hprefs & Hworkspace & _).
  exists stored. split; [exact Hlookup|]. split; [exact Hpath|].
  split; [exact Hname|]. split; [exact Hprefs|exact Hworkspace].
Defined.

(** A cluster without preferences cannot be given a handler. *)
Lemma setClusterPreferences_undefined_witness :
  constructor Sample.env Sample.kubeconfig (Sample.cluster_with None) Sample.fresh_world
  = inl (TypeError "Cannot read property 'prometheusProvider' of undefined").
Proof.
  destruct (setClusterPreferences_undefined Sample.env) as (_ & _ & Hnew & _).
  apply Hnew; [reflexivity|]. by eexists.
Defined.

End Examples.


(** * Further properties *)

(** ** The cluster store: removal, replacement, batches *)

Module ClusterStoreMore.
Import ClusterBaseInfo ClusterStore.

Section Lists.
Context {A : Type} (P : A → Prop) `{!∀ x, Decision (P x)}.

Lemma list_find_head_filter (l : list A) :
  snd <$> list_find P l = head (filter P l).
Proof.
  induction l as [|x l IH]; [done|].
  cbn [list_find]. destruct (decide (P x)) as [Hx|Hx].
  - by rewrite filter_cons_True.
  - rewrite filter_cons_False by done. rewrite <- IH.
    by destruct (list_find P l) as [[? ?]|].
Qed.

(** Deleting the first element that satisfies [P]. *)
Lemma delete_first (l : list A) (i : nat) (x : A) :
  list_find P l = Some (i, x) →
  filter P (delete i l) = tail (filter P l) ∧
  filter (λ y, ¬ P y) (delete i l) = filter (λ y, ¬ P y) l.
Proof.
  revert i. induction l as [|y l IH]; intros i Hfind; [done|].
  cbn [list_find] in Hfind. destruct (decide (P y)) as [Hy|Hy].
  - injection Hfind as <- <-. simpl.
    rewrite filter_cons_True by done.
    by rewrite (filter_cons_False (λ y, ¬ P y)) by tauto.
  - destruct (list_find P l) as [[j z]|] eqn:Hl; [|done].
    simpl in Hfind. injection Hfind as <- <-. simpl.
    destruct (IH j eq_refl) as [IH1 IH2].
    rewrite !(filter_cons_False P) by done.
    rewrite !(filter_cons_True (λ y, ¬ P y)) by done.
    by rewrite IH1, IH2.
Qed.

Lemma insert_first (l : list A) (i : nat) (old x : A) :
  list_find P l = Some (i, old) → P x →
  filter P (<[i := x]> l) = x :: tail (filter P l) ∧
  filter (λ y, ¬ P y) (<[i := x]> l) = filter (λ y, ¬ P y) l.
Proof.
  revert i. induction l as [|y l IH]; intros i Hfind Hx; [done|].
  cbn [list_find] in Hfind. destruct (decide (P y)) as [Hy|Hy].
  - injection Hfind as <- <-. simpl.
    rewrite !(filter_cons_True P) by done.
    by rewrite !(filter_cons_False (λ y, ¬ P y)) by tauto.
  - destruct (list_find P l) as [[j z]|] eqn:Hl; [|done].
    simpl in Hfind. injection Hfind as <- <-. simpl.
    destruct (IH j eq_refl Hx) as [IH1 IH2].
    rewrite !(filter_cons_False P) by done.
    rewrite !(filter_cons_True (λ y, ¬ P y)) by done.
    by rewrite IH1, IH2.
Qed.

Lemma filter_none (l : list A) : list_find P l = None → filter P l = [].
Proof.
  intros Hnone%list_find_None. induction Hnone as [|x l Hx _ IH]; [done|].
  by rewrite filter_cons_False.
Qed.
End Lists.

Lemma lookupCluster_with_id ident s :
  lookupCluster ident s = head (with_id ident (getAllClusters s)).
Proof. apply list_find_head_filter. Qed.

Lemma getAllClusters_delete ident s :
  ident ≠ "clusters"%string →
  getAllClusters (ClusterStore.mk (delete ident (store s))) = getAllClusters s.
Proof. intros Hne. unfold getAllClusters; simpl. by rewrite lookup_delete_ne. Qed.

Lemma with_id_other i j l : i ≠ j → with_id i (with_id j l) = [].
Proof.
  intros Hne. unfold with_id. induction l as [|x l IH]; [done|].
  destruct (decide (id x = j)) as [Hx|Hx].
  - rewrite (filter_cons_True (λ cl, id cl = j)) by done.
    rewrite filter_cons_False by congruence. done.
  - by rewrite (filter_cons_False (λ cl, id cl = j)) by done.
Qed.

Lemma with_id_without_id i j l : i ≠ j → with_id i (without_id j l) = with_id i l.
Proof.
  intros Hne. unfold with_id, without_id. induction l as [|x l IH]; [done|].
  destruct (decide (id x = j)) as [Hx|Hx].
  - rewrite (filter_cons_False (λ cl, ¬ id cl = j)) by tauto.
    by rewrite (filter_cons_False (λ cl, id cl = i)) by congruence.
  - rewrite (filter_cons_True (λ cl, ¬ id cl = j)) by done.
    destruct (decide (id x = i)).
    + rewrite !(filter_cons_True (λ cl, id cl = i)) by done. by rewrite IH.
    + by rewrite !(filter_cons_False (λ cl, id cl = i)) by done.
Qed.

Lemma without_id_whole ident l : with_id ident l = [] → without_id ident l = l.
Proof.
  unfold with_id, without_id. induction l as [|x l IH]; [done|].
  destruct (decide (id x = ident)) as [Hx|Hx].
  - by rewrite filter_cons_True.
  - rewrite (filter_cons_False (λ cl, id cl = ident)) by done.
    rewrite filter_cons_True by done. intros Hl. by rewrite IH.
Qed.

Lemma with_id_ids ident l : with_id ident l = [] ↔ ident ∉ id <$> l.
Proof.
  unfold with_id. induction l as [|x l IH].
  { split; [intros _; apply not_elem_of_nil|done]. }
  rewrite fmap_cons, not_elem_of_cons. destruct (decide (id x = ident)) as [Hx|Hx].
  - rewrite filter_cons_True by done. naive_solver.
  - rewrite filter_cons_False by done. naive_solver.
Qed.

Lemma unique_with_id ident l : NoDup (id <$> l) → tail (with_id ident l) = [].
Proof.
  unfold with_id. induction l as [|x l IH]; [done|].
  rewrite fmap_cons, NoDup_cons. intros [Hx Hl].
  destruct (decide (id x = ident)) as [<-|Hne].
  - rewrite filter_cons_True by done. simpl. by apply with_id_ids.
  - rewrite filter_cons_False by done. auto.
Qed.

Lemma unique_filter (Q : ClusterBaseInfo.t → Prop) `{!∀ x, Decision (Q x)} l :
  NoDup (id <$> l) → NoDup (id <$> filter Q l).
Proof.
  induction l as [|x l IH]; [done|].
  rewrite fmap_cons, NoDup_cons. intros [Hx Hl].
  destruct (decide (Q x)).
  - rewrite filter_cons_True by done. rewrite fmap_cons, NoDup_cons. split; [|auto].
    intros (y & Hy & Hin%list_elem_of_filter)%list_elem_of_fmap.
    apply Hx, list_elem_of_fmap. naive_solver.
  - rewrite filter_cons_False by done. auto.
Qed.

(** What [removeCluster] leaves of the list of records. *)
Lemma removeCluster_list ident s :
  ident ≠ "clusters"%string →
  getAllClusters (removeCluster ident s) =
  match findIndex ident (getAllClusters s) with
  | Some index => delete index (getAllClusters s)
  | None => getAllClusters s
  end.
Proof.
  intros Hne. unfold removeCluster. cbv zeta.
  rewrite (getAllClusters_delete ident s Hne).
  destruct (findIndex ident (getAllClusters s)).
  - by rewrite ClusterStoreFacts.getAllClusters_set_clusters.
  - by apply getAllClusters_delete.
Qed.

Lemma removeCluster_parts ident s :
  ident ≠ "clusters"%string →
  with_id ident (getAllClusters (removeCluster ident s))
    = tail (with_id ident (getAllClusters s)) ∧
  without_id ident (getAllClusters (removeCluster ident s))
    = without_id ident (getAllClusters s).
Proof.
  intros Hne. rewrite removeCluster_list by done. unfold findIndex, with_id, without_id.
  destruct (list_find _ (getAllClusters s)) as [[i x]|] eqn:Hfind; simpl.
  - by apply (delete_first _ _ _ _ Hfind).
  - by rewrite (filter_none _ _ Hfind).
Qed.

Lemma removeCluster_unique_list ident s :
  ident ≠ "clusters"%string →
  unique_ids s →
  getAllClusters (removeCluster ident s) = without_id ident (getAllClusters s) ∧
  unique_ids (removeCluster ident s).
Proof.
  intros Hne Huniq.
  destruct (removeCluster_parts ident s Hne) as (Hwith & Hwithout).
  rewrite (unique_with_id ident _ Huniq) in Hwith.
  assert (Hlist : getAllClusters (removeCluster ident s)
                  = without_id ident (getAllClusters s)).
  { by rewrite <- Hwithout, (without_id_whole _ _ Hwith). }
  split; [done|]. unfold unique_ids. rewrite Hlist. by apply unique_filter.
Qed.

(** X1. [removeCluster(id)], for an id other than the store's own key
    ["clusters"], takes out the first record of that id and nothing else:
    the records of the id lose their first, the records of every other id
    stay as they are and in their order, and a lookup of another id gives
    what it gave before.  A second record of the same id is still found. *)
Theorem removeCluster_first ident s :
  ident ≠ "clusters"%string →
  with_id ident (getAllClusters (removeCluster ident s))
    = tail (with_id ident (getAllClusters s)) ∧
  without_id ident (getAllClusters (removeCluster ident s))
    = without_id ident (getAllClusters s) ∧
  lookupCluster ident (removeCluster ident s)
    = head (tail (with_id ident (getAllClusters s))) ∧
  ∀ other, other ≠ ident →
           lookupCluster other (removeCluster ident s) = lookupCluster other s.
Proof.
  intros Hne.
  destruct (removeCluster_parts ident s Hne) as [Hwith Hwithout].
  split_and!; [done|done| |].
  - by rewrite lookupCluster_with_id, Hwith.
  - intros other Hother. rewrite !lookupCluster_with_id.
    rewrite <- (with_id_without_id other ident (getAllClusters (removeCluster ident s)))
      by done.
    by rewrite Hwithout, with_id_without_id.
Qed.

(** X2. In a store without two records of one id, [removeCluster(id)] (the
    id not being ["clusters"]) leaves exactly the records of the other ids,
    in their order; the id is no longer found, and the ids stay unique. *)
Theorem removeCluster_unique ident s :
  ident ≠ "clusters"%string →
  unique_ids s →
  getAllClusters (removeCluster ident s) = without_id ident (getAllClusters s) ∧
  lookupCluster ident (removeCluster ident s) = None ∧
  unique_ids (removeCluster ident s).
Proof.
  intros Hne Huniq.
  destruct (removeCluster_unique_list ident s Hne Huniq) as [Hlist Hu].
  split_and!; [done| |done].
  rewrite lookupCluster_with_id, Hlist.
  assert (Hnone : with_id ident (without_id ident (getAllClusters s)) = []);
    [|by rewrite Hnone].
  clear. unfold with_id, without_id.
  induction (getAllClusters s) as [|x l IH]; [done|].
  destruct (decide (id x = ident)) as [Hx|Hx].
  - rewrite (filter_cons_False (λ cl, ¬ id cl = ident)) by tauto. exact IH.
  - rewrite (filter_cons_True (λ cl, ¬ id cl = ident)) by done.
    rewrite filter_cons_False by done. exact IH.
Qed.

(** X3. The records live under the store key ["clusters"], and
    [removeCluster] first deletes the key named by the id: removing the id
    ["clusters"] discards every record of the store. *)
Theorem removeCluster_clusters s :
  getAllClusters (removeCluster "clusters" s) = [].
Proof.
  unfold removeCluster. cbv zeta.
  assert (Hempty : getAllClusters (ClusterStore.mk (delete "clusters"%string (store s))) = []).
  { unfold getAllClusters; simpl. by rewrite lookup_delete_eq. }
  rewrite Hempty. done.
Qed.

Lemma unique_inj l x y :
  NoDup (id <$> l) → x ∈ l → y ∈ l → id x = id y → x = y.
Proof.
  intros Hnd [i Hi]%list_elem_of_lookup [j Hj]%list_elem_of_lookup Heq.
  assert (i = j) as ->.
  { eapply NoDup_lookup; [exact Hnd| |].
    - by rewrite list_lookup_fmap, Hi.
    - rewrite list_lookup_fmap, Hj. simpl. by rewrite Heq. }
  congruence.
Qed.

Lemma filter_ext_in {A} (P Q : A → Prop) `{!∀ x, Decision (P x)} `{!∀ x, Decision (Q x)}
    (l : list A) :
  (∀ x, x ∈ l → P x ↔ Q x) → filter P l = filter Q l.
Proof.
  induction l as [|x l IH]; intros Hext; [done|].
  assert (Hl : filter P l = filter Q l).
  { apply IH. intros y Hy. apply Hext. by right. }
  destruct (decide (P x)) as [Hx|Hx].
  - rewrite !filter_cons_True; [by rewrite Hl|by apply Hext; [left|]|done].
  - rewrite !filter_cons_False; [done| |done].
    intros HQ. apply Hx, Hext; [left|done].
Qed.

Lemma filter_all_in {A} (P : A → Prop) `{!∀ x, Decision (P x)} (l : list A) :
  (∀ x, x ∈ l → P x) → filter P l = l.
Proof.
  induction l as [|x l IH]; intros Hall; [done|].
  rewrite filter_cons_True by (apply Hall; by left).
  rewrite IH; [done|]. intros y Hy. apply Hall. by right.
Qed.

(** X4. In a store without two records of one id, in which no record of
    the workspace has the id ["clusters"], [removeClustersByWorkspace(w)]
    leaves exactly the records whose workspace is not [w], in their order,
    and the ids stay unique. *)
Theorem removeClustersByWorkspace_filter w s :
  unique_ids s →
  (∀ c, c ∈ getAllClusters s → workspace c = Some w → id c ≠ "clusters"%string) →
  getAllClusters (removeClustersByWorkspace w s)
    = filter (λ c, workspace c ≠ Some w) (getAllClusters s) ∧
  unique_ids (removeClustersByWorkspace w s).
Proof.
  intros Huniq Hkey. unfold removeClustersByWorkspace.
  set (f := λ (s : ClusterStore.t) (cluster : ClusterBaseInfo.t),
              if decide (workspace cluster = Some w)
              then removeCluster (id cluster) s else s).
  set (L := getAllClusters s) in *.
  assert (Hgen : ∀ P, (∀ c, c ∈ P → c ∈ L) →
                      getAllClusters (foldl f s P)
                      = filter (λ c, ¬ (workspace c = Some w ∧ c ∈ P)) L).
  { induction P as [|c P IH] using rev_ind; intros Hsub.
    - simpl. symmetry. apply filter_all_in.
      intros x _ [_ Hx]. by apply elem_of_nil in Hx.
    - rewrite foldl_snoc.
      assert (HP : ∀ c, c ∈ P → c ∈ L) by (intros; apply Hsub; set_solver).
      assert (Hc : c ∈ L) by (apply Hsub; set_solver).
      specialize (IH HP). unfold f at 1.
      destruct (decide (workspace c = Some w)) as [Hw|Hw].
      + assert (Hu : unique_ids (foldl f s P)).
        { unfold unique_ids. rewrite IH. by apply unique_filter. }
        destruct (removeCluster_unique_list (id c) (foldl f s P)) as (-> & _);
          [by apply Hkey|done|].
        rewrite IH. unfold without_id. rewrite list_filter_filter.
        apply filter_ext_in. intros x Hx. rewrite elem_of_app, list_elem_of_singleton.
        split.
        * intros [Hid Hnot] [Hxw [Hin| ->]]; [by apply Hnot|done].
        * intros Hnot. split.
          -- intros Hid. apply Hnot.
             assert (x = c) as ->.
             { eapply unique_inj; [exact Huniq|done..]. }
             auto.
          -- intros [Hxw Hin]. apply Hnot. auto.
      + rewrite IH. apply filter_ext_in. intros x Hx.
        rewrite elem_of_app, list_elem_of_singleton. split.
        * intros Hnot [Hxw [Hin| ->]]; [by apply Hnot|done].
        * intros Hnot [Hxw Hin]. apply Hnot. auto. }
  assert (Hlist : getAllClusters (foldl f s L)
                  = filter (λ c, workspace c ≠ Some w) L).
  { rewrite Hgen by done. apply filter_ext_in. intros x Hx. split.
    - intros Hnot Hxw. by apply Hnot.
    - intros Hxw [Hxw' _]. done. }
  split; [done|]. unfold unique_ids. rewrite Hlist. by apply unique_filter.
Qed.

(** What [storeCluster] makes of the list of records. *)
Lemma storeCluster_list c s :
  getAllClusters (storeCluster c s) =
  match findIndex (id c) (getAllClusters s) with
  | None => getAllClusters s ++ [storable c]
  | Some index => <[index := storable c]> (getAllClusters s)
  end.
Proof.
  unfold storeCluster. rewrite ClusterStoreFacts.getAllClusters_set_clusters.
  by destruct (findIndex _ _).
Qed.

Lemma set_clusters_twice l1 l2 s : set_clusters l2 (set_clusters l1 s) = set_clusters l2 s.
Proof. unfold set_clusters; simpl. by rewrite insert_insert_eq. Qed.

Lemma storeCluster_unique c s : unique_ids s → unique_ids (storeCluster c s).
Proof.
  unfold unique_ids. rewrite storeCluster_list. unfold findIndex.
  destruct (list_find _ (getAllClusters s)) as [[i x]|] eqn:Hfind; simpl; intros Huniq.
  - apply list_find_Some in Hfind as (Hi & Hx & _).
    rewrite list_fmap_insert. rewrite list_insert_id; [done|].
    rewrite list_lookup_fmap, Hi. simpl. by rewrite Hx.
  - rewrite fmap_app. apply NoDup_app. split_and!; [done| |apply NoDup_singleton].
    intros y Hy Hin. apply list_elem_of_singleton in Hin as ->.
    revert Hy. by apply with_id_ids, filter_none.
Qed.

(** X5. [storeCluster] touches the first record of its id only: among the
    records of that id the first is replaced by the stored one (which is
    the only one if there was none), the records of the other ids and what
    a lookup of another id gives stay as they are, and ids that were unique
    stay unique. *)
Theorem storeCluster_frame c s :
  with_id (id c) (getAllClusters (storeCluster c s))
    = storable c :: tail (with_id (id c) (getAllClusters s)) ∧
  without_id (id c) (getAllClusters (storeCluster c s))
    = without_id (id c) (getAllClusters s) ∧
  (∀ other, other ≠ id c →
            lookupCluster other (storeCluster c s) = lookupCluster other s) ∧
  (unique_ids s → unique_ids (storeCluster c s)).
Proof.
  assert (Hparts :
    with_id (id c) (getAllClusters (storeCluster c s))
      = storable c :: tail (with_id (id c) (getAllClusters s)) ∧
    without_id (id c) (getAllClusters (storeCluster c s))
      = without_id (id c) (getAllClusters s)).
  { rewrite storeCluster_list. unfold findIndex, with_id, without_id.
    destruct (list_find _ (getAllClusters s)) as [[i x]|] eqn:Hfind; simpl.
    - by apply (insert_first _ _ _ _ _ Hfind).
    - rewrite !filter_app, (filter_none _ _ Hfind).
      rewrite (filter_cons_True (λ cl, id cl = id c)) by done.
      rewrite (filter_cons_False (λ cl, ¬ id cl = id c)) by (simpl; tauto).
      by rewrite app_nil_r. }
  destruct Hparts as [Hwith Hwithout]. split_and!; [done|done| |].
  - intros other Hother. rewrite !lookupCluster_with_id.
    rewrite <- (with_id_without_id other (id c) (getAllClusters (storeCluster c s)))
      by done.
    by rewrite Hwithout, with_id_without_id.
  - apply storeCluster_unique.
Qed.

(** X6. The last write wins: storing a record and then another one of the
    same id leaves the store as storing the second one alone does.  In
    particular storing a record twice is storing it once. *)
Theorem storeCluster_overwrite c1 c2 s :
  id c1 = id c2 →
  storeCluster c2 (storeCluster c1 s) = storeCluster c2 s.
Proof.
  intros Hid. unfold storeCluster at 1. cbv zeta. rewrite storeCluster_list.
  unfold storeCluster at 2. cbv zeta. unfold storeCluster at 1. cbv zeta.
  rewrite set_clusters_twice. f_equal.
  rewrite <- Hid. unfold findIndex.
  destruct (list_find _ (getAllClusters s)) as [[i x]|] eqn:Hfind; simpl.
  - rewrite (ClusterStoreFacts.list_find_insert_same _ _ _ _ (storable c1) Hfind) by done.
    simpl. by rewrite list_insert_insert_eq.
  - rewrite (ClusterStoreFacts.list_find_snoc_new _ _ (storable c1) Hfind) by done.
    simpl. rewrite insert_app_r_alt by done. by rewrite Nat.sub_diag.
Qed.

(** X7. Storing a record whose id (other than ["clusters"]) the store does
    not have and removing that id again gives back the list of records. *)
Theorem removeCluster_storeCluster c s :
  id c ≠ "clusters"%string →
  lookupCluster (id c) s = None →
  getAllClusters (removeCluster (id c) (storeCluster c s)) = getAllClusters s.
Proof.
  intros Hkey Hnone. rewrite removeCluster_list by done. rewrite storeCluster_list.
  unfold lookupCluster in Hnone. unfold findIndex.
  destruct (list_find _ (getAllClusters s)) as [[i x]|] eqn:Hfind; [done|]. simpl.
  rewrite (ClusterStoreFacts.list_find_snoc_new _ _ (storable c) Hfind) by done. simpl.
  by rewrite delete_middle, app_nil_r.
Qed.

(** X8. In a store without two records of one id, [storeClusters] of a
    batch of records with distinct ids (none of them ["clusters"]) drops the
    stored records whose id is in the batch and appends the batch, in its
    order and reduced to the persisted members; the ids stay unique. *)
Theorem storeClusters_batch cs s :
  unique_ids s →
  NoDup (id <$> cs) →
  (∀ c, c ∈ cs → id c ≠ "clusters"%string) →
  getAllClusters (storeClusters cs s)
    = filter (λ x, id x ∉ id <$> cs) (getAllClusters s) ++ (storable <$> cs) ∧
  unique_ids (storeClusters cs s).
Proof.
  intros Huniq. unfold storeClusters.
  induction cs as [|c cs IH] using rev_ind; intros Hnd Hkey.
  - simpl. rewrite app_nil_r. split; [|done].
    symmetry. apply filter_all_in. intros x _. apply not_elem_of_nil.
  - rewrite fmap_app in Hnd. apply NoDup_app in Hnd as (Hnd & Hfresh & _).
    destruct IH as [IHlist IHuniq]; [done|intros; apply Hkey; set_solver|].
    rewrite foldl_snoc.
    set (s1 := foldl _ s cs) in *.
    assert (Hc : id c ∉ id <$> cs).
    { intros Hin. apply (Hfresh (id c) Hin). simpl. set_solver. }
    destruct (removeCluster_unique_list (id c) s1) as (Hlist & Huniq1);
      [apply Hkey; set_solver|done|].
    split; [|by apply storeCluster_unique].
    rewrite storeCluster_list. unfold findIndex.
    destruct (list_find _ (getAllClusters (removeCluster (id c) s1)))
      as [[i x]|] eqn:Hfind; simpl.
    { exfalso. apply list_find_Some in Hfind as (Hi & Hx & _).
      apply list_elem_of_lookup_2 in Hi. rewrite Hlist in Hi.
      apply list_elem_of_filter in Hi as [Hne _]. done. }
    rewrite Hlist, IHlist. unfold without_id. rewrite filter_app, list_filter_filter.
    rewrite (fmap_app storable), <- app_assoc. f_equal; [|f_equal].
    + apply filter_ext_in. intros x _. rewrite fmap_app, elem_of_app. simpl.
      rewrite list_elem_of_singleton. naive_solver.
    + apply filter_all_in. intros x (y & -> & Hy)%list_elem_of_fmap. simpl.
      intros Heq. apply Hc. rewrite <- Heq. apply list_elem_of_fmap. eauto.
Qed.

End ClusterStoreMore.


(** ** The context handler: preferences, telemetry, failures, lifecycle *)

Module ContextHandlerMore.
Import ContextHandler ContextHandlerFacts.

Lemma append_nonempty (a b : string) : b ≠ EmptyString → a +:+ b ≠ EmptyString.
Proof. intros Hb. destruct a; [done|]. simpl. discriminate. Qed.

Lemma truthy_string_true s : s ≠ EmptyString → truthy_string (Some s) = true.
Proof. intros Hs. simpl. by destruct (String.eqb_spec s EmptyString). Qed.

(** The service path [namespace/services/service:port]. *)
Lemma service_path_truthy (ns svc : string) (port : Z) :
  truthy_string (Some (ns +:+ "/services/" +:+ svc +:+ ":" +:+ show_number (Some port)))
  = true.
Proof. apply truthy_string_true, append_nonempty. discriminate. Qed.

Lemma fulfilled_origin {A} (rs : list (Error + A)) (x : A) :
  x ∈ fulfilled rs → ∃ j, rs !! j = Some (inr x).
Proof.
  unfold fulfilled. intros (r & Hr & Hx)%list_elem_of_omap.
  destruct r as [e|v]; [done|]. injection Hx as ->.
  by apply list_elem_of_lookup in Hr.
Qed.

(** [prometheusProviders.find(p => p.id === x)] *)
Lemma provider_find (x : string) (ps : list PrometheusProvider.t) :
  snd <$> list_find (λ p, Some (PrometheusProvider.id p) = Some x) ps
  = head (filter (λ p, PrometheusProvider.id p = x) ps).
Proof.
  induction ps as [|p ps IH]; [done|].
  cbn [list_find]. destruct (decide (PrometheusProvider.id p = x)) as [Hp|Hp].
  - rewrite filter_cons_True by done. rewrite decide_True by congruence. done.
  - rewrite filter_cons_False by done. rewrite decide_False by congruence.
    rewrite <- IH. by destruct (list_find _ ps) as [[? ?]|].
Qed.

Section Telemetry.
Variable env : Env.t.
Implicit Types (st : State) (latency : nat → nat).

Lemma service_origin latency st service st1 :
  getPrometheusService env latency st = (inr service, st1) →
  service = default_service ∨
  ∃ i p, candidates env (this st) !! i = Some p ∧
         PrometheusProvider.getPrometheusService
           p (length (World.probes (world st)) + i)%nat = inr (Some service).
Proof.
  rewrite getPrometheusService_unfold. unfold Promise_all.
  destruct (first_rejection _ _ _) as [[? ?]|]; [done|].
  destruct (filter _ _ !! 0%nat) as [[s|]|] eqn:Hhead; intros [= <- <-]; auto.
  right. apply list_elem_of_lookup_2, list_elem_of_filter in Hhead as [_ Hin].
  apply fulfilled_origin in Hin as [j Hj].
  rewrite probe_outcomes_lookup in Hj.
  destruct (candidates env (this st) !! j) as [p|] eqn:Hp; [|done].
  simpl in Hj. injection Hj as Hj. eauto.
Qed.


(** X10. When the pinned provider id is not the id of a registered
    provider, [getPrometheusService] has no candidate: it issues no probe
    and returns the fallback service. *)
Theorem getPrometheusService_unregistered latency st x :
  prometheusProvider (this st) = Some x → x ≠ EmptyString →
  (∀ p, p ∈ Env.prometheusProviders env → PrometheusProvider.id p ≠ x) →
  fst (getPrometheusService env latency st) = inr default_service ∧
  this (snd (getPrometheusService env latency st)) = this st ∧
  World.probes (world (snd (getPrometheusService env latency st)))
    = World.probes (world st).
Proof.
  intros Hpin Hx Hnone.
  assert (Hcand : candidates env (this st) = []).
  { unfold candidates. rewrite Hpin, truthy_string_true by done.
    induction (Env.prometheusProviders env) as [|p ps IH]; [done|].
    rewrite filter_cons_False.
    - apply IH. intros q Hq. apply Hnone. by right.
    - intros [= Hp]. apply (Hnone p); [by left|done]. }
  rewrite getPrometheusService_this, getPrometheusService_world.
  split_and!; [|done|].
  - rewrite getPrometheusService_unfold. unfold probe_outcomes. by rewrite Hcand.
  - unfold probed; simpl. rewrite Hcand. simpl. by rewrite app_nil_r.
Qed.

(** X11. With a provider id pinned (by preferences or by an earlier
    resolution), [getPrometheusProvider] issues no probe and changes
    nothing: it returns the first registered provider of that id, or
    nothing when no provider of that id is registered. *)
Theorem getPrometheusProvider_pinned latency st x :
  prometheusProvider (this st) = Some x → x ≠ EmptyString →
  getPrometheusProvider env latency st =
    (inr (head (filter (λ p, PrometheusProvider.id p = x) (Env.prometheusProviders env))),
     st).
Proof.
  intros Hpin Hx. unfold getPrometheusProvider. unfold_m.
  rewrite Hpin, truthy_string_true by done. simpl. rewrite Hpin.
  by rewrite provider_find.
Qed.

(** X12. With nothing pinned and no probe finding a service,
    [getPrometheusProvider] pins the fallback id ["lens"], says so in the
    log, and returns the registered provider of that id if there is one;
    from then on only providers of id ["lens"] are candidates. *)
Theorem getPrometheusProvider_fallback latency st :
  truthy_string (prometheusProvider (this st)) = false →
  (∀ j p, Env.prometheusProviders env !! j = Some p →
          PrometheusProvider.getPrometheusService
            p (length (World.probes (world st)) + j)%nat = inr None) →
  ∃ st1,
    getPrometheusProvider env latency st =
      (inr (head (filter (λ p, PrometheusProvider.id p = "lens"%string)
                         (Env.prometheusProviders env))), st1) ∧
    prometheusProvider (this st1) = Some "lens"%string ∧
    World.infos (world st1) = World.infos (world st) ++ ["using lens as prometheus provider"%string] ∧
    candidates env (this st1)
      = filter (λ p, Some (PrometheusProvider.id p) = Some "lens"%string)
               (Env.prometheusProviders env).
Proof.
  intros Hun Hnone.
  assert (Hget : getPrometheusService env latency st = (inr default_service, probed env st)).
  { destruct (getPrometheusService_returns env latency st) as [service Hs].
    - intros j e. rewrite probe_outcomes_lookup, candidates_unpinned by done.
      destruct (Env.prometheusProviders env !! j) as [p|] eqn:Hp; [|done].
      simpl. rewrite (Hnone j p Hp). done.
    - rewrite Hs. f_equal. f_equal.
      destruct (service_origin _ _ _ _ Hs) as [->|(i & p & Hp & Hfound)]; [done|].
      rewrite candidates_unpinned in Hp by done. rewrite (Hnone i p Hp) in Hfound. done. }
  set (st1 := mkState (set_prometheusProvider (Some "lens"%string) (this st))
                      (World.set_infos
                         (World.infos (world st)
                          ++ ["using lens as prometheus provider"%string])
                         (world (probed env st)))).
  exists st1. split_and!; [|done|done|done].
  unfold getPrometheusProvider. unfold_m. rewrite Hun, Hget. simpl.
  by rewrite provider_find.
Qed.
End Telemetry.

(** *** Preferences and the service path *)

Section Preferences.
Variable env : Env.t.
Implicit Types (st : State) (latency : nat → nat).

Lemma setClusterPreferences_some p st :
  setClusterPreferences (Some p) st =
  (inr tt,
   mkState
     (set_clusterName
        (Some (match ClusterPreferences.clusterName p with
               | Some n => if truthy_string (Some n) then n else contextName (this st)
               | None => contextName (this st)
               end))
        (set_prometheusPath
           ((λ prom, PrometheusPreference.namespace prom +:+ "/services/"
                     +:+ PrometheusPreference.service prom +:+ ":"
                     +:+ show_number (Some (PrometheusPreference.port prom)))
              <$> ClusterPreferences.prometheus p)
           (set_prometheusProvider
              (PrometheusProviderPreference.type <$> ClusterPreferences.prometheusProvider p)
              (this st))))
     (world st)).
Proof.
  unfold setClusterPreferences. unfold_m. simpl.
  destruct (ClusterPreferences.prometheus p); simpl;
    destruct (ClusterPreferences.clusterName p) as [n|]; simpl; try done;
    by destruct (negb (String.eqb n EmptyString)).
Qed.

Lemma getPrometheusPath_stored latency st path :
  prometheusPath (this st) = Some path → truthy_string (Some path) = true →
  getPrometheusPath env latency st = (inr path, st).
Proof.
  intros Hpath Htruthy. unfold getPrometheusPath. unfold_m. by rewrite Hpath, Htruthy.
Qed.

(** X13. Preferences replace what was resolved before: preferences that
    name neither a provider nor a service location leave the handler
    without a pinned provider and without a service path, whatever was
    pinned or cached, so that the next resolution probes the whole provider
    list; the port, the cached target, the proxy object and the world are
    not touched. *)
Theorem setClusterPreferences_discards p st :
  ClusterPreferences.prometheusProvider p = None →
  ClusterPreferences.prometheus p = None →
  let st1 := snd (setClusterPreferences (Some p) st) in
  prometheusProvider (this st1) = None ∧
  prometheusPath (this st1) = None ∧
  candidates env (this st1) = Env.prometheusProviders env ∧
  proxyPort (this st1) = proxyPort (this st) ∧
  apiTarget (this st1) = apiTarget (this st) ∧
  proxyServer (this st1) = proxyServer (this st) ∧
  world st1 = world st.
Proof.
  intros Hprovider Hservice st1. subst st1.
  rewrite setClusterPreferences_some, Hprovider, Hservice. simpl.
  split_and!; try done.
Qed.

(** X14. With a service location in the preferences, [getPrometheusPath]
    returns [namespace/services/service:port] built from it, issues no
    probe and changes nothing, whatever the providers would find. *)
Theorem getPrometheusPath_configured p prom st latency :
  ClusterPreferences.prometheus p = Some prom →
  let st1 := snd (setClusterPreferences (Some p) st) in
  getPrometheusPath env latency st1 =
    (inr (PrometheusPreference.namespace prom +:+ "/services/"
          +:+ PrometheusPreference.service prom +:+ ":"
          +:+ pretty (PrometheusPreference.port prom)), st1).
Proof.
  intros Hprom st1. subst st1. rewrite setClusterPreferences_some, Hprom.
  apply getPrometheusPath_stored; [done|]. apply service_path_truthy.
Qed.

(** X15. Without a stored service path, [getPrometheusPath] resolves the
    service, returns [namespace/services/service:port] of it and stores
    that path, after which every call returns the stored path without a
    probe and without a change; when the resolution is rejected the error
    is passed on and no path is stored. *)
Theorem getPrometheusPath_memoizes latency st :
  truthy_string (prometheusPath (this st)) = false →
  (∀ service st1,
      getPrometheusService env latency st = (inr service, st1) →
      let path := PrometheusService.namespace service +:+ "/services/"
                  +:+ PrometheusService.service service +:+ ":"
                  +:+ pretty (PrometheusService.port service) in
      let st2 := mkState (set_prometheusPath (Some path) (this st1)) (world st1) in
      getPrometheusPath env latency st = (inr path, st2) ∧
      ∀ latency', getPrometheusPath env latency' st2 = (inr path, st2)) ∧
  (∀ e st1,
      getPrometheusService env latency st = (inl e, st1) →
      getPrometheusPath env latency st = (inl e, st1) ∧
      prometheusPath (this st1) = prometheusPath (this st)).
Proof.
  intros Hunset. split.
  - intros service st1 Hget path st2. split.
    + unfold getPrometheusPath, resolvePrometheusPath. unfold_m.
      destruct (prometheusPath (this st)) as [p|] eqn:Hp.
      * rewrite Hunset, Hget. done.
      * rewrite Hget. done.
    + intros latency'. apply getPrometheusPath_stored; [done|].
      apply service_path_truthy.
  - intros e st1 Hget. split.
    + unfold getPrometheusPath, resolvePrometheusPath. unfold_m.
      destruct (prometheusPath (this st)) as [p|] eqn:Hp.
      * rewrite Hunset, Hget. done.
      * rewrite Hget. done.
    + apply getPrometheusService_post in Hget as ->. done.
Qed.
End Preferences.

(** *** Failures of the allocator and the life of the proxy *)

Ltac port_cases env st :=
  let Hres := fresh "Hres" in
  destruct (resolveProxyPort_cases env st)
    as [(? & ? & ? & Hres)|[(? & ? & ? & Hres)|(? & ? & ? & Hres)]];
  rewrite Hres in *; clear Hres.

Section Lifecycle.
Variable env : Env.t.
Implicit Types (st : State).

(** X16. A failed port resolution is not remembered: the allocator's error
    is logged once and thrown, no port is stored, and the next call invokes
    the allocator again and ends as that invocation does. *)
Theorem resolveProxyPort_failure st e st1 :
  resolveProxyPort env st = (inl e, st1) →
  Env.getFreePort env (World.allocations (world st)) = inl e ∧
  this st1 = this st ∧
  World.errors (world st1) = World.errors (world st) ++ [e] ∧
  World.allocations (world st1) = S (World.allocations (world st)) ∧
  resolveProxyPort env st1 =
    match Env.getFreePort env (S (World.allocations (world st))) with
    | inr p => (inr p, allocated p st1)
    | inl e' => (inl e', refused e' st1)
    end.
Proof.
  intros Hres. port_cases env st; simplify_eq.
  split_and!; try done.
  by rewrite resolveProxyPort_fresh.
Qed.

(** X17. When [getApiTarget] throws, the error is the allocator's, no
    descriptor has been built and nothing has been cached, so the next call
    starts over. *)
Theorem getApiTarget_failure w st e st1 :
  getApiTarget env w st = (inl e, st1) →
  Env.getFreePort env (World.allocations (world st)) = inl e ∧
  this st1 = this st ∧
  World.targets (world st1) = World.targets (world st) ∧
  (w = false → apiTarget (this st1) = None).
Proof.
  rewrite getApiTarget_unfold. intros Hget.
  destruct (apiTarget (this st)) as [c|] eqn:Ha, w; try done.
  all: port_cases env st; simplify_eq; simpl; split_and!; try done.
Qed.

Lemma held_ok_exec op st : held_ok st → held_ok (exec env op st).
Proof.
  intros Hheld.
  assert (Hframe : op ≠ EnsureServer → op ≠ StopServer → held_ok (exec env op st)).
  { intros H1 H2 r. destruct (exec_proxies env op st H1 H2) as [-> ->]. apply Hheld. }
  destruct op; try (by apply Hframe); clear Hframe; unfold exec.
  - rewrite ensureServer_unfold.
    destruct (proxyServer (this st)) as [r|] eqn:Hr; [done|].
    port_cases env st; simpl; try (intros r; simpl; congruence).
    all: intros r [= <-]; simpl; eexists; split; [by apply list_lookup_middle|done].
  - unfold stopServer. unfold_m.
    destruct (proxyServer (this st)) as [r|] eqn:Hr; simpl; [|done].
    intros r'. simpl. done.
Qed.

Lemma held_ok_reachable st : reachable env st → held_ok st.
Proof.
  induction 1 as [kc c w st Hw Hst|op st _ IH].
  - apply constructor_fresh in Hst as (_ & Hs & _). intros r. by rewrite Hs.
  - by apply held_ok_exec.
Qed.

(** X18. In every state of a handler [stopServer] returns and leaves no
    proxy object with a running process and no proxy object held; after it
    [proxyServerError] has nothing to report and a second [stopServer]
    changes nothing. *)
Theorem stopServer_stops st :
  reachable env st →
  let st1 := snd (stopServer st) in
  fst (stopServer st) = inr tt ∧
  proxyServer (this st1) = None ∧
  (∀ i x, World.proxies (world st1) !! i = Some x → KubeAuthProxy.live x = false) ∧
  stopServer st1 = (inr tt, st1) ∧
  proxyServerError st1 = (inr None, st1).
Proof.
  intros Hreach st1.
  destruct (reachable_invariants env st Hreach) as (_ & Hone & _).
  assert (Hnone : proxyServer (this st1) = None).
  { subst st1. unfold stopServer. unfold_m. by destruct (proxyServer (this st)) eqn:Hs. }
  split_and!.
  - unfold stopServer. unfold_m. by destruct (proxyServer (this st)).
  - done.
  - intros i x Hi. apply not_true_is_false. intros Hlive.
    pose proof (one_process_exec env StopServer st Hone i x Hi Hlive) as Hheld.
    simpl in Hheld. fold st1 in Hheld. congruence.
  - unfold stopServer. unfold_m. by rewrite Hnone.
  - unfold proxyServerError. unfold_m. by rewrite Hnone.
Qed.

(** X19. In a state that the handler reaches from its constructor through
    calls awaited one after the other, in which it holds a proxy object and
    its port resolves: [stopServer()] and then [ensureServer()] tell the
    held object to exit, and construct, hold and run a second, new object.
    Afterwards this is the only object on which [run()] has been called and
    [exit()] has not.  The [ensureServer()] call returns when [run()] of the
    new object resolves and throws its error when it is rejected; the
    object is held either way. *)
Theorem restart_server st r :
  reachable env st →
  proxyServer (this st) = Some r →
  truthy_number (proxyPort (this st)) = true ∨
    (∃ p, Env.getFreePort env (World.allocations (world st)) = inr p) →
  let st1 := exec_all env [StopServer; EnsureServer] st in
  ∃ r',
    proxyServer (this st1) = Some r' ∧
    r' = length (World.proxies (world st)) ∧ r' ≠ r ∧
    (∃ x, World.proxies (world st1) !! r = Some x ∧ KubeAuthProxy.exited x = true) ∧
    (∃ y, World.proxies (world st1) !! r' = Some y ∧ KubeAuthProxy.live y = true) ∧
    (∀ i z, World.proxies (world st1) !! i = Some z → KubeAuthProxy.live z = true → i = r') ∧
    fst (ensureServer env (exec env StopServer st))
      = match Env.run_outcome env r' with Some e => inl e | None => inr tt end.
Proof.
  intros Hreach Hr Hport st1.
  destruct (held_ok_reachable st Hreach r Hr) as (x & Hx & Hlive).
  assert (Hlen : (r < length (World.proxies (world st)))%nat) by (by eapply lookup_lt_Some).
  assert (Hone : one_process st1).
  { apply (reachable_invariants env st1). subst st1. by apply reachable_exec_all. }
  exists (length (World.proxies (world st))).
  assert (Hshape :
    (proxyServer (this st1) = Some (length (World.proxies (world st))) ∧
     ∃ y, World.proxies (world st1)
          = alter KubeAuthProxy.exit r (World.proxies (world st)) ++ [y] ∧
          KubeAuthProxy.live y = true) ∧
    fst (ensureServer env (exec env StopServer st))
      = match Env.run_outcome env (length (World.proxies (world st))) with
        | Some e => inl e
        | None => inr tt
        end).
  { subst st1. unfold exec_all. simpl. unfold stopServer at 1 2 3. unfold_m. rewrite Hr.
    simpl. rewrite ensureServer_unfold. simpl.
    set (st0 := mkState _ _).
    assert (Hp0 : proxyPort (this st0) = proxyPort (this st)) by done.
    assert (Ha0 : World.allocations (world st0) = World.allocations (world st)) by done.
    assert (Hl0 : length (World.proxies (world st0)) = length (World.proxies (world st))).
    { subst st0. simpl. by rewrite length_alter. }
    destruct (resolveProxyPort_cases env st0)
      as [(p & ? & ? & ->)|[(Hf & p & ? & ->)|(Hf & e & He & _)]]; simpl.
    - rewrite ?Hl0, ?length_alter. split; [split; [done|]; eauto|done].
    - rewrite ?Hl0, ?length_alter. split; [split; [done|]; eauto|done].
    - exfalso. rewrite Hp0, Ha0 in *. destruct Hport as [Ht|[p Hp]]; congruence. }
  destruct Hshape as ((Hs & y & Hlist & Hy) & Hresult).
  split_and!; [done|done|lia| | | |done].
  - exists (KubeAuthProxy.exit x). split; [|done].
    rewrite Hlist, lookup_app_l by (by rewrite length_alter).
    by rewrite list_lookup_alter_eq, Hx.
  - exists y. split; [|done]. rewrite Hlist.
    apply list_lookup_middle. by rewrite length_alter.
  - intros i z Hi Hz. pose proof (Hone i z Hi Hz). congruence.
Qed.

(** X20. [ensureServer], on a handler that holds no proxy object and whose
    port resolves to [p], constructs one proxy object for the handler's
    cluster and port [p], runs it and holds it.  Its environment is the
    process environment, with [HTTPS_PROXY] replaced by the cluster's
    proxy preference when that is a non-empty string. *)
Theorem ensureServer_constructs st p st0 :
  proxyServer (this st) = None →
  resolveProxyPort env st = (inr p, st0) →
  let st1 := snd (ensureServer env st) in
  ∃ x,
    World.proxies (world st1) = World.proxies (world st) ++ [x] ∧
    proxyServer (this st1) = Some (length (World.proxies (world st))) ∧
    proxyPort (this st1) = Some p ∧
    KubeAuthProxy.port x = p ∧
    KubeAuthProxy.cluster x = cluster (this st) ∧
    KubeAuthProxy.live x = true ∧
    (∀ k, k ≠ "HTTPS_PROXY"%string →
          KubeAuthProxy.env x !! k = Env.process_env env !! k) ∧
    (∀ v, Cluster.preferences (cluster (this st)) ≫= ClusterPreferences.httpsProxy = Some v →
          v ≠ EmptyString → KubeAuthProxy.env x !! "HTTPS_PROXY"%string = Some v) ∧
    (truthy_string (Cluster.preferences (cluster (this st)) ≫= ClusterPreferences.httpsProxy)
       = false → KubeAuthProxy.env x = Env.process_env env).
Proof.
  intros Hs Hres st1. subst st1. rewrite ensureServer_unfold, Hs, Hres. simpl.
  assert (Hst0 : World.proxies (world st0) = World.proxies (world st) ∧
                 proxyPort (this st0) = Some p).
  { port_cases env st; simplify_eq; done. }
  destruct Hst0 as [Hpx Hport]. rewrite Hpx.
  eexists. split_and!; [reflexivity|done|done|done|done|done| | |]; simpl.
  - intros k Hk. destruct (_ ≫= _) as [v|]; [|done].
    destruct (negb (String.eqb v EmptyString)); [|done]. by rewrite lookup_insert_ne.
  - intros v -> Hv. pose proof (truthy_string_true v Hv) as Ht. unfold truthy_string in Ht.
    rewrite Ht. by rewrite lookup_insert_eq.
  - destruct (_ ≫= _) as [v|]; [|done]. unfold truthy_string. by intros ->.
Qed.

(** X21. When [run()] of the new proxy object is rejected, [ensureServer]
    throws that error but still holds the object: the next [ensureServer]
    returns at once and runs nothing. *)
Theorem ensureServer_run_failure st p st0 e :
  proxyServer (this st) = None →
  resolveProxyPort env st = (inr p, st0) →
  Env.run_outcome env (length (World.proxies (world st))) = Some e →
  let st1 := snd (ensureServer env st) in
  fst (ensureServer env st) = inl e ∧
  proxyServer (this st1) = Some (length (World.proxies (world st))) ∧
  ensureServer env st1 = (inr tt, st1).
Proof.
  intros Hs Hres Hrun st1.
  assert (Hpx : World.proxies (world st0) = World.proxies (world st)).
  { port_cases env st; simplify_eq; done. }
  assert (Hheld : proxyServer (this st1) = Some (length (World.proxies (world st)))).
  { subst st1. rewrite ensureServer_unfold, Hs, Hres. simpl. by rewrite Hpx. }
  split_and!; [|done|].
  - rewrite ensureServer_unfold, Hs, Hres. simpl. by rewrite Hpx, Hrun.
  - by rewrite ensureServer_unfold, Hheld.
Qed.

(** X22. Taking [url.parse] to return a record for the server string, as
    [Env.url_parse] does, the constructor returns a handler exactly when
    the kubeconfig has a context of the cluster's context name, has the
    cluster that this context names, and the cluster record has
    preferences.  The kubeconfig of the handler it returns is the caller's
    with the current context set to the cluster's context name, its cluster
    URL is the parse of the server string of that context's cluster, and it
    has no port, no cached target and no proxy object.  The constructor
    calls neither the allocator nor a probe, builds no descriptor and no
    proxy object, and logs nothing. *)
Theorem constructor_returns kubeconfig c w :
  ((∃ st, constructor env kubeconfig c w = inr st) ↔
   (∃ context current preferences,
      KubeConfig.getContextObject (Some (Cluster.contextName c)) kubeconfig
        = Some context ∧
      KubeConfig.getCluster (KubeContext.cluster context) kubeconfig = Some current ∧
      Cluster.preferences c = Some preferences)) ∧
  (∀ st, constructor env kubeconfig c w = inr st →
         proxyPort (this st) = None ∧ apiTarget (this st) = None ∧
         proxyServer (this st) = None ∧ world st = w ∧
         kc (this st) = KubeConfig.setCurrentContext (Cluster.contextName c) kubeconfig ∧
         ∃ current,
           KubeConfig.getCurrentCluster (kc (this st)) = Some current ∧
           clusterUrl (this st) = Env.url_parse env (KubeCluster.server current)).
Proof.
  split.
  2: { intros st Hst.
       destruct (constructor_fresh env _ _ _ _ Hst) as (Ha & Hs & Hp & Hw).
       split_and!; [done..| |].
       all: unfold constructor in Hst.
       all: destruct (KubeConfig.getCurrentCluster _) as [current|] eqn:Hcurrent;
         [|done].
       all: destruct (KubeConfig.getContextObject _ _) as [context|]; [|done].
       all: destruct (Cluster.preferences c) as [p|]; [|done].
       all: rewrite setClusterPreferences_some in Hst; injection Hst as <-.
       - done.
       - exists current. by split. }
  unfold constructor, KubeConfig.getCurrentCluster.
  change (KubeConfig.currentContext
            (KubeConfig.setCurrentContext (Cluster.contextName c) kubeconfig))
    with (Some (Cluster.contextName c)).
  change (KubeConfig.getContextObject (Some (Cluster.contextName c))
            (KubeConfig.setCurrentContext (Cluster.contextName c) kubeconfig))
    with (KubeConfig.getContextObject (Some (Cluster.contextName c)) kubeconfig).
  destruct (KubeConfig.getContextObject (Some (Cluster.contextName c)) kubeconfig)
    as [context|] eqn:Hcontext.
  2: { split; [by intros [st Hst]|by intros (? & ? & ? & ? & _)]. }
  change (KubeConfig.getCluster (KubeContext.cluster context)
            (KubeConfig.setCurrentContext (Cluster.contextName c) kubeconfig))
    with (KubeConfig.getCluster (KubeContext.cluster context) kubeconfig).
  destruct (KubeConfig.getCluster (KubeContext.cluster context) kubeconfig)
    as [current|] eqn:Hcurrent.
  2: { split; [by intros [st Hst]|].
       intros (? & ? & ? & [= <-] & Hc & _). congruence. }
  destruct (Cluster.preferences c) as [p|].
  - rewrite setClusterPreferences_some. split; eauto 10.
  - split; [by intros [st Hst]|by intros (? & ? & ? & _ & _ & ?)].
Qed.
End Lifecycle.

(** X23. [applyHeaders] sets [authorization] to [Bearer <cluster id>],
    replacing whatever the request carried under that name, leaves the other
    headers alone, and applied twice is as applied once. *)
Theorem applyHeaders_authorization h headers :
  applyHeaders h headers !! "authorization"%string = Some ("Bearer " +:+ id h) ∧
  (∀ k, k ≠ "authorization"%string → applyHeaders h headers !! k = headers !! k) ∧
  applyHeaders h (applyHeaders h headers) = applyHeaders h headers.
Proof.
  unfold applyHeaders. split_and!.
  - apply lookup_insert_eq.
  - intros k Hk. by apply lookup_insert_ne.
  - apply insert_insert_eq.
Qed.

(** *** Calls awaited one after the other *)

Section Awaited.
Variable env : Env.t.

Lemma awaited_cons c calls : awaited (c :: calls) = Call c :: Settle c :: awaited calls.
Proof. done. Qed.

Lemma step_call_memoized (r : Run) c p :
  proxyPort (this (state r)) = Some p → p ≠ 0 →
  step env r (Call c) = mkRun (state r) (waiting r) (<[c := inr p]> (returned r)).
Proof. intros Hp Hnz. simpl. by rewrite (resolveProxyPort_call_memoized _ p). Qed.

Lemma step_settle_idle (r : Run) c : waiting r !! c = None → step env r (Settle c) = r.
Proof. intros Hc. simpl. by rewrite Hc. Qed.

Lemma awaited_memoized r0 calls p :
  proxyPort (this (state r0)) = Some p → p ≠ 0 → waiting r0 = ∅ →
  let r := foldl (step env) r0 (awaited calls) in
  state r = state r0 ∧ waiting r = ∅ ∧
  (∀ c, c ∈ calls → returned r !! c = Some (inr p)) ∧
  (∀ c, c ∉ calls → returned r !! c = returned r0 !! c).
Proof.
  intros Hp Hnz. revert r0 Hp. induction calls as [|c calls IH]; intros r0 Hp Hw r.
  - subst r. split_and!; [done|done| |done]. intros c Hc. by apply elem_of_nil in Hc.
  - subst r. rewrite awaited_cons. cbn [foldl].
    rewrite (step_call_memoized r0 c p Hp Hnz).
    rewrite step_settle_idle by (simpl; by rewrite Hw).
    set (r1 := mkRun _ _ _).
    destruct (IH r1) as (Hstate & Hwait & Hin & Hout); [done|done|].
    split_and!; [done|done| |].
    + intros c' Hc'. destruct (decide (c' ∈ calls)) as [Hd|Hd]; [by apply Hin|].
      rewrite Hout by done. apply elem_of_cons in Hc' as [->|?]; [|done].
      subst r1. simpl. apply lookup_insert_eq.
    + intros c' Hc'. apply not_elem_of_cons in Hc' as [Hne Hc'].
      rewrite Hout by done. subst r1. simpl. by apply lookup_insert_ne.
Qed.

(** X24. When the calls of [resolveProxyPort()] are awaited one after the
    other and the allocator's answer to the first is a non-zero port, the
    allocator is invoked once and every call returns that port. *)
Theorem awaited_resolutions st calls p :
  truthy_number (proxyPort (this st)) = false →
  Env.getFreePort env (World.allocations (world st)) = inr p → p ≠ 0 →
  calls ≠ [] →
  let r := run env (awaited calls) st in
  World.allocations (world (state r)) = S (World.allocations (world st)) ∧
  proxyPort (this (state r)) = Some p ∧
  waiting r = ∅ ∧
  ∀ c, c ∈ calls → returned r !! c = Some (inr p).
Proof.
  intros Hf Hfree Hnz Hcalls r. subst r.
  destruct calls as [|c calls]; [done|]. unfold run. rewrite awaited_cons. cbn [foldl].
  set (r1 := step env (step env _ (Call c)) (Settle c)).
  assert (Hr1 : r1 = mkRun (allocated p st) ∅ (<[c := inr p]> ∅)).
  { subst r1. cbn [step state]. rewrite resolveProxyPort_call_fresh by done.
    cbn [waiting state returned]. rewrite lookup_insert_eq.
    unfold resolveProxyPort_settle. unfold_m. rewrite Hfree. simpl.
    by rewrite delete_insert_id. }
  clearbody r1. subst r1.
  destruct (awaited_memoized (mkRun (allocated p st) ∅ (<[c := inr p]> ∅)) calls p)
    as (Hstate & Hwait & Hin & Hout); [done..|].
  rewrite Hstate. split_and!; [done|done|done|].
  intros c' Hc'. destruct (decide (c' ∈ calls)) as [Hd|Hd]; [by apply Hin|].
  rewrite Hout by done. apply elem_of_cons in Hc' as [->|?]; [|done].
  simpl. apply lookup_insert_eq.
Qed.
End Awaited.

End ContextHandlerMore.


(** ** The further properties on the concrete inputs *)

Module MoreExamples.
Import ContextHandler ContextHandlerFacts ContextHandlerMore.
Import ClusterStore ClusterStoreMore.

Lemma store_unique : unique_ids Sample.store.
Proof.
  unfold unique_ids. vm_compute.
  apply NoDup_cons. split; [set_solver|]. apply NoDup_singleton.
Qed.

Lemma store_list :
  getAllClusters Sample.store
  = [ClusterStore.storable Sample.record; ClusterStore.storable Sample.record2].
Proof. reflexivity. Qed.

(** Removing [c1] leaves [c2] to be found. *)
Lemma removeCluster_first_witness :
  "c1"%string ≠ "clusters"%string ∧
  lookupCluster "c2" (removeCluster "c1" Sample.store) = lookupCluster "c2" Sample.store.
Proof.
  assert (Hkey : "c1"%string ≠ "clusters"%string) by discriminate.
  split; [exact Hkey|].
  destruct (removeCluster_first "c1" Sample.store Hkey) as (_ & _ & _ & Hother).
  apply Hother. discriminate.
Defined.

Lemma removeCluster_unique_witness :
  unique_ids Sample.store ∧
  lookupCluster "c1" (removeCluster "c1" Sample.store) = None.
Proof.
  split; [exact store_unique|].
  destruct (removeCluster_unique "c1" Sample.store) as (_ & Hgone & _);
    [discriminate|exact store_unique|exact Hgone].
Defined.

(** Removing the workspace ["lab"] leaves [c1]. *)
Lemma removeClustersByWorkspace_filter_witness :
  unique_ids Sample.store ∧
  getAllClusters (removeClustersByWorkspace "lab" Sample.store)
  = [ClusterStore.storable Sample.record].
Proof.
  split; [exact store_unique|].
  destruct (removeClustersByWorkspace_filter "lab" Sample.store) as [Hlist _].
  - exact store_unique.
  - intros c Hc _. rewrite store_list in Hc.
    apply elem_of_cons in Hc as [->|Hc]; [discriminate|].
    apply list_elem_of_singleton in Hc as ->. discriminate.
  - rewrite Hlist. reflexivity.
Defined.

Lemma storeCluster_overwrite_witness :
  ClusterBaseInfo.id Sample.record = ClusterBaseInfo.id Sample.record_moved ∧
  storeCluster Sample.record_moved (storeCluster Sample.record Sample.store)
  = storeCluster Sample.record_moved Sample.store.
Proof.
  split; [reflexivity|]. by apply storeCluster_overwrite.
Defined.

Lemma removeCluster_storeCluster_witness :
  lookupCluster "c3" Sample.store = None ∧
  getAllClusters (removeCluster "c3" (storeCluster Sample.record3 Sample.store))
  = getAllClusters Sample.store.
Proof.
  split; [reflexivity|].
  apply (removeCluster_storeCluster Sample.record3 Sample.store); [discriminate|reflexivity].
Defined.

(** A batch of [c1] (moved) and [c3]: the old [c1] goes, [c2] stays. *)
Lemma storeClusters_batch_witness :
  unique_ids Sample.store ∧
  getAllClusters (storeClusters [Sample.record_moved; Sample.record3] Sample.store)
  = [ClusterStore.storable Sample.record2; ClusterStore.storable Sample.record_moved;
     ClusterStore.storable Sample.record3].
Proof.
  split; [exact store_unique|].
  destruct (storeClusters_batch [Sample.record_moved; Sample.record3] Sample.store)
    as [Hlist _].
  - exact store_unique.
  - vm_compute. apply NoDup_cons. split; [set_solver|]. apply NoDup_singleton.
  - intros c Hc. apply elem_of_cons in Hc as [->|Hc]; [discriminate|].
    apply list_elem_of_singleton in Hc as ->. discriminate.
  - rewrite Hlist. reflexivity.
Defined.

(** The pinned id ["X"] is not registered: no probe, the fallback. *)
Lemma getPrometheusService_unregistered_witness :
  prometheusProvider (this (Sample.pinned "X")) = Some "X"%string ∧
  fst (getPrometheusService Sample.env (λ _, 0%nat) (Sample.pinned "X"))
  = inr default_service.
Proof.
  split; [reflexivity|].
  destruct (getPrometheusService_unregistered Sample.env (λ _, 0%nat) (Sample.pinned "X") "X")
    as (Hresult & _); [reflexivity|discriminate| |exact Hresult].
  intros p Hp. vm_compute in Hp.
  apply elem_of_cons in Hp as [->|Hp]; [discriminate|].
  apply elem_of_cons in Hp as [->|Hp]; [discriminate|].
  apply list_elem_of_singleton in Hp as ->. discriminate.
Defined.

(** With ["B"] pinned, provider [B] is returned and nothing is probed. *)
Lemma getPrometheusProvider_pinned_witness :
  prometheusProvider (this (Sample.pinned "B")) = Some "B"%string ∧
  getPrometheusProvider Sample.env (λ _, 0%nat) (Sample.pinned "B")
  = (inr (Some (Sample.provider "B" (inr (Some (Sample.service "B"))))), Sample.pinned "B").
Proof.
  split; [reflexivity|].
  rewrite (getPrometheusProvider_pinned Sample.env (λ _, 0%nat) (Sample.pinned "B") "B");
    [reflexivity|reflexivity|discriminate].
Defined.

(** No provider matches: ["lens"] is pinned, and no provider is returned
    since none of that id is registered. *)
Lemma getPrometheusProvider_fallback_witness :
  truthy_string (prometheusProvider (this Sample.initial)) = false ∧
  fst (getPrometheusProvider Sample.env_silent (λ _, 0%nat) Sample.initial) = inr None ∧
  prometheusProvider
    (this (snd (getPrometheusProvider Sample.env_silent (λ _, 0%nat) Sample.initial)))
  = Some "lens"%string.
Proof.
  split; [reflexivity|].
  destruct (getPrometheusProvider_fallback Sample.env_silent (λ _, 0%nat) Sample.initial)
    as (st1 & Hget & Hpin & _).
  - reflexivity.
  - intros [|[|j]] p Hp; simpl in Hp; simplify_eq; done.
  - rewrite Hget. split; [reflexivity|exact Hpin].
Defined.

(** Empty preferences unpin ["B"]. *)
Lemma setClusterPreferences_discards_witness :
  ClusterPreferences.prometheusProvider Sample.no_preferences = None ∧
  prometheusProvider
    (this (snd (setClusterPreferences (Some Sample.no_preferences) (Sample.pinned "B"))))
  = None.
Proof.
  split; [reflexivity|].
  destruct (setClusterPreferences_discards Sample.env Sample.no_preferences
              (Sample.pinned "B") eq_refl eq_refl) as (Hp & _).
  exact Hp.
Defined.

(** The configured location gives the path, although [B] would match. *)
Lemma getPrometheusPath_configured_witness :
  ClusterPreferences.prometheus Sample.preferences_with_service
    = Some Sample.service_preference ∧
  fst (getPrometheusPath Sample.env (λ _, 0%nat)
         (snd (setClusterPreferences (Some Sample.preferences_with_service) Sample.initial)))
  = inr "monitoring/services/prometheus-server:9090"%string.
Proof.
  split; [reflexivity|].
  rewrite (getPrometheusPath_configured Sample.env Sample.preferences_with_service
             Sample.service_preference Sample.initial (λ _, 0%nat) eq_refl).
  reflexivity.
Defined.

(** The path of [B]'s service is resolved once and then kept. *)
Lemma getPrometheusPath_memoizes_witness :
  truthy_string (prometheusPath (this Sample.initial)) = false ∧
  let st2 := snd (getPrometheusPath Sample.env (λ _, 0%nat) Sample.initial) in
  fst (getPrometheusPath Sample.env (λ _, 0%nat) Sample.initial)
    = inr "monitoring/services/prometheus-server:9090"%string ∧
  getPrometheusPath Sample.env (λ _, 5%nat) st2
    = (inr "monitoring/services/prometheus-server:9090"%string, st2).
Proof.
  split; [reflexivity|].
  destruct (getPrometheusPath_memoizes Sample.env (λ _, 0%nat) Sample.initial eq_refl)
    as [Hfound _].
  destruct (Hfound (Sample.service "B")
                   (snd (getPrometheusService Sample.env (λ _, 0%nat) Sample.initial))
                   eq_refl) as [Hget Hagain].
  split; [reflexivity|]. exact (Hagain (λ _, 5%nat)).
Defined.

(** The allocator fails once: the error is thrown, the next call succeeds. *)
Lemma resolveProxyPort_failure_witness :
  resolveProxyPort Sample.env_exhausted Sample.initial
    = (inl (Failure "no free port"), refused (Failure "no free port") Sample.initial) ∧
  fst (resolveProxyPort Sample.env_exhausted
         (refused (Failure "no free port") Sample.initial)) = inr 49153.
Proof.
  split; [reflexivity|].
  destruct (resolveProxyPort_failure Sample.env_exhausted Sample.initial
              (Failure "no free port") (refused (Failure "no free port") Sample.initial)
              eq_refl) as (_ & _ & _ & _ & Hnext).
  rewrite Hnext. reflexivity.
Defined.

Lemma getApiTarget_failure_witness :
  fst (getApiTarget Sample.env_exhausted false Sample.initial)
    = inl (Failure "no free port") ∧
  apiTarget (this (snd (getApiTarget Sample.env_exhausted false Sample.initial))) = None.
Proof.
  split; [reflexivity|].
  destruct (getApiTarget_failure Sample.env_exhausted false Sample.initial
              (Failure "no free port")
              (snd (getApiTarget Sample.env_exhausted false Sample.initial)) eq_refl)
    as (_ & _ & _ & Hnone).
  by apply Hnone.
Defined.

Lemma running_reachable : reachable Sample.env (exec Sample.env EnsureServer Sample.initial).
Proof. apply reachable_exec, Examples.initial_reachable. Qed.

(** The running proxy is stopped. *)
Lemma stopServer_stops_witness :
  reachable Sample.env (exec Sample.env EnsureServer Sample.initial) ∧
  proxyServer (this (snd (stopServer (exec Sample.env EnsureServer Sample.initial)))) = None.
Proof.
  split; [exact running_reachable|].
  destruct (stopServer_stops Sample.env _ running_reachable) as (_ & Hnone & _).
  exact Hnone.
Defined.

(** Stop and start again: proxy object 1 replaces proxy object 0, and the
    call returns. *)
Lemma restart_server_witness :
  proxyServer (this (exec Sample.env EnsureServer Sample.initial)) = Some 0%nat ∧
  proxyServer
    (this (exec_all Sample.env [StopServer; EnsureServer]
             (exec Sample.env EnsureServer Sample.initial))) = Some 1%nat ∧
  fst (ensureServer Sample.env
         (exec Sample.env StopServer (exec Sample.env EnsureServer Sample.initial)))
    = inr tt.
Proof.
  split; [reflexivity|].
  destruct (restart_server Sample.env (exec Sample.env EnsureServer Sample.initial) 0
              running_reachable eq_refl (or_introl eq_refl))
    as (r' & Hheld & -> & _ & _ & _ & _ & Hresult).
  split; [exact Hheld|exact Hresult].
Defined.

Lemma ensureServer_constructs_witness :
  proxyServer (this Sample.initial) = None ∧
  ∃ x, World.proxies (world (snd (ensureServer Sample.env Sample.initial))) = [x] ∧
       KubeAuthProxy.port x = 49152.
Proof.
  split; [reflexivity|].
  destruct (ensureServer_constructs Sample.env Sample.initial 49152
              (snd (resolveProxyPort Sample.env Sample.initial)) eq_refl eq_refl)
    as (x & Hlist & _ & _ & Hport & _).
  exists x. split; [exact Hlist|exact Hport].
Defined.

(** [run()] is rejected: the call throws, the next one returns. *)
Lemma ensureServer_run_failure_witness :
  Env.run_outcome Sample.env_crashing 0 = Some (Failure "spawn kubectl ENOENT") ∧
  let st1 := snd (ensureServer Sample.env_crashing Sample.initial) in
  fst (ensureServer Sample.env_crashing Sample.initial)
    = inl (Failure "spawn kubectl ENOENT") ∧
  ensureServer Sample.env_crashing st1 = (inr tt, st1).
Proof.
  split; [reflexivity|].
  destruct (ensureServer_run_failure Sample.env_crashing Sample.initial 49152
              (snd (resolveProxyPort Sample.env_crashing Sample.initial))
              (Failure "spawn kubectl ENOENT") eq_refl eq_refl eq_refl)
    as (Hthrown & _ & Hnext).
  split; [exact Hthrown|exact Hnext].
Defined.

(** Three awaited calls: one allocation, 49152 each time. *)
Lemma awaited_resolutions_witness :
  truthy_number (proxyPort (this Sample.initial)) = false ∧
  let r := run Sample.env (awaited [0; 1; 2]%nat) Sample.initial in
  World.allocations (world (state r)) = 1%nat ∧
  returned r !! 2%nat = Some (inr 49152).
Proof.
  split; [reflexivity|].
  destruct (awaited_resolutions Sample.env Sample.initial [0; 1; 2]%nat 49152)
    as (Halloc & _ & _ & Hret); [reflexivity|reflexivity|lia|discriminate|].
  split; [exact Halloc|]. apply Hret. set_solver.
Defined.

End MoreExamples.
